(** * MTG Arena deck builder: the deck engine and the API proxy

    A shallow embedding of [app.js] (catalog loading, colour filter, prompt
    grouping, deck-list parser, deck text, deck statistics) and of the two
    OpenAI proxies ([functions/api/chat.js] and the Cloudflare worker),
    followed by the properties of the specification that concern them.

    Conventions of the embedding.
    - A JavaScript string is the list of its UTF-16 code units ([list N]);
      [js "Deck"] is the string of an ASCII literal.
    - An integer-valued JavaScript number (a card count, a total, a mana
      curve bucket) is a [Z], taken exactly, as JavaScript numbers are on
      integers up to 2^53 - 1; a number that may carry a fraction (a
      converted mana cost, a request parameter) is a [Q].
    - An object used as a dictionary ([cardDataMap], [groups], [manaCurve])
      is a finite map over its own keys.
    - An exception ([TypeError] on a property of [undefined]) is [None]. *)

From Stdlib Require Import Ascii String QArith Qround.
From stdpp Require Import gmap list.

Local Open Scope Z_scope.
#[local] Set Warnings "-register-all,-clear-no-such-hyp".

(** ** JavaScript primitives used by the application *)

Module JS.

Abbreviation str := (list N).

(** The string of an ASCII literal. *)
Definition js (s : string) : str :=
  map N_of_ascii (list_ascii_of_string s).

(** ECMAScript [LineTerminator]: LF, CR, LS, PS. *)
Definition isLineTerminator (c : N) : bool :=
  ((c =? 10) || (c =? 13) || (c =? 0x2028) || (c =? 0x2029))%N.

(** ECMAScript [WhiteSpace] together with [LineTerminator]: the code units
    removed by [String.prototype.trim] and matched by the regex class \s. *)
Definition isWhiteSpace (c : N) : bool :=
  ((c =? 9) || (c =? 11) || (c =? 12) || (c =? 32) || (c =? 160)
   || (c =? 0x1680) || ((0x2000 <=? c) && (c <=? 0x200A))
   || (c =? 0x202F) || (c =? 0x205F) || (c =? 0x3000) || (c =? 0xFEFF)
   || isLineTerminator c)%N.

(** The regex class \d (without the unicode flag): ASCII digits. *)
Definition isDigit (c : N) : bool := ((48 <=? c) && (c <=? 57))%N.

Fixpoint dropWhile (p : N -> bool) (s : str) : str :=
  match s with
  | [] => []
  | c :: s' => if p c then dropWhile p s' else s
  end.

Fixpoint takeWhile (p : N -> bool) (s : str) : str :=
  match s with
  | [] => []
  | c :: s' => if p c then c :: takeWhile p s' else []
  end.

Definition trimStart (s : str) : str := dropWhile isWhiteSpace s.
Definition trimEnd (s : str) : str := rev (dropWhile isWhiteSpace (rev s)).

(** [s.trim()] *)
Definition trim (s : str) : str := trimEnd (trimStart s).

(** [s.split(sep)] for a separator of one code unit; the result is never
    empty ([''.split(sep)] is [['']]). *)
Fixpoint split (sep : N) (s : str) : list str :=
  match s with
  | [] => [[]]
  | c :: s' =>
      if (c =? sep)%N then [] :: split sep s'
      else match split sep s' with
           | l :: ls => (c :: l) :: ls
           | [] => [[c]]
           end
  end.

Fixpoint startsWith (s sub : str) : bool :=
  match sub, s with
  | [], _ => true
  | _ :: _, [] => false
  | a :: sub', c :: s' => (a =? c)%N && startsWith s' sub'
  end.

(** [s.includes(sub)]: [sub] occurs in [s] as a substring. *)
Fixpoint includes (s sub : str) : bool :=
  startsWith s sub ||
  match s with
  | [] => false
  | _ :: s' => includes s' sub
  end.

(** [lines.join(sep)] *)
Fixpoint join (sep : str) (l : list str) : str :=
  match l with
  | [] => []
  | [x] => x
  | x :: l' => x ++ sep ++ join sep l'
  end.

(** Case folding of the regex flag [i] (no unicode flag) against a pattern
    of ASCII letters: a code unit is compared through its upper case, and a
    code unit of 128 or more never folds onto an ASCII letter. *)
Definition canonicalize (c : N) : N :=
  if ((97 <=? c) && (c <=? 122))%N then (c - 32)%N else c.

(** [/^word$/i.test(s)] for a word of ASCII letters. *)
Definition test_word_i (word s : str) : bool :=
  bool_decide (map canonicalize s = map canonicalize word).

(** [/^[-=]+$/.test(s)] *)
Definition test_decorative (s : str) : bool :=
  match s with
  | [] => false
  | _ => forallb (fun c => (c =? 45) || (c =? 61))%N s
  end.

(** [parseInt(ds, 10)] on a run of decimal digits. *)
Definition digitValue (c : N) : Z := Z.of_N c - 48.

Definition parseInt (ds : str) : Z :=
  fold_left (fun acc c => 10 * acc + digitValue c) ds 0.

(** [s.match(/^(\d+)x?\s+(.+)$/)]: the two captures, or [None] for [null].

    The quantifiers are greedy and backtrack. [\d+] must take the whole
    digit run (after a shorter one the next code unit is a digit, which is
    neither [x] nor white space). An [x] after the digits is consumed (if
    it is skipped, \s+ fails on it). \s+ takes the whole white-space run;
    what is left must be a non-empty run without line terminators, which
    [.] does not match. When nothing is left, \s+ gives back its last code
    unit to [(.+)], provided the run has two or more code units and the
    last one is not a line terminator. *)
Definition match_rest (t : str) : option str :=
  let ws := takeWhile isWhiteSpace t in
  let u := dropWhile isWhiteSpace t in
  match ws with
  | [] => None
  | _ :: ws' =>
      match u with
      | _ :: _ => if forallb (fun c => negb (isLineTerminator c)) u
                  then Some u else None
      | [] => match rev ws' with
              | [] => None
              | c :: _ => if isLineTerminator c then None else Some [c]
              end
      end
  end.

Definition match_entry (s : str) : option (str * str) :=
  let ds := takeWhile isDigit s in
  let r := dropWhile isDigit s in
  match ds with
  | [] => None
  | _ :: _ =>
      let t := match r with
               | c :: r' => if (c =? 120)%N then r' else r
               | [] => r
               end in
      match match_rest t with
      | Some name => Some (ds, name)
      | None => None
      end
  end.

(** Decimal digits of a non-negative integer, most significant first. *)
Fixpoint digits_acc (fuel : nat) (n : Z) (acc : str) : str :=
  match fuel with
  | O => acc
  | S fuel' =>
      let acc' := Z.to_N (48 + n mod 10) :: acc in
      if n / 10 =? 0 then acc' else digits_acc fuel' (n / 10) acc'
  end.

Definition digits (n : Z) : str :=
  digits_acc (S (Z.to_nat (Z.log2 n))) n [].

(** [String(n)] and the template literal [`${n}`] for an integer [n]. *)
Definition toString (n : Z) : str :=
  if n <? 0 then 45%N :: digits (- n) else digits n.

End JS.

(** ** The application, [app.js] *)

Module App.
Import JS.

(** *** Catalog *)

(** The value stored in [cardDataMap] for a card name. *)
Record Card := mkCard {
  colorIdentity : list str;
  typeLine : str;
  manaCost : str;
  cmc : Q;
  rarity : str;
  oracleText : str;
  keywords : list str
}.

(** A row of the catalog query, in column order
    [name, color_identity, type_line, mana_cost, cmc, rarity, oracle_text,
    keywords]; [None] is SQL [NULL]. *)
Record Row := mkRow {
  row_name : str;
  row_color_identity : option str;
  row_type_line : option str;
  row_mana_cost : option str;
  row_cmc : option Q;
  row_rarity : option str;
  row_oracle_text : option str;
  row_keywords : option str
}.

(** The globals [cardNames] and [cardDataMap]. *)
Record Catalog := mkCatalog {
  cardNames : list str;
  cardDataMap : gmap str Card
}.

(** [x || ''] on a string or [null]. *)
Definition or_empty (x : option str) : str :=
  match x with
  | Some (c :: s) => c :: s
  | _ => []
  end.

(** [x || 0] on a number or [null]. *)
Definition or_zero (x : option Q) : Q :=
  match x with
  | Some q => if Qeq_bool q 0 then 0%Q else q
  | None => 0%Q
  end.

Section Loading.

(** [JSON.parse] on the text of a column that holds an array of strings;
    [None] when it throws. *)
Variable JSON_parse : str -> option (list str).

Definition safeParseJSON (s : option str) (fallback : list str) : list str :=
  match s with
  | None | Some [] => fallback
  | Some text =>
      match JSON_parse text with
      | Some v => v
      | None => fallback
      end
  end.

Definition cardOfRow (r : Row) : Card :=
  {| colorIdentity := safeParseJSON (row_color_identity r) [];
     typeLine := or_empty (row_type_line r);
     manaCost := or_empty (row_mana_cost r);
     cmc := or_zero (row_cmc r);
     rarity := or_empty (row_rarity r);
     oracleText := or_empty (row_oracle_text r);
     keywords := safeParseJSON (row_keywords r) [] |}.

(** The loop of [loadDatabase] over the rows of the query. *)
Definition loadRow (cat : Catalog) (r : Row) : Catalog :=
  {| cardNames := cardNames cat ++ [row_name r];
     cardDataMap := <[row_name r := cardOfRow r]> (cardDataMap cat) |}.

Definition loadDatabase (rows : list Row) : Catalog :=
  fold_left loadRow rows {| cardNames := []; cardDataMap := ∅ |}.

End Loading.

(** *** Colour filter *)

(** The colourless marker of a colour selection. *)
Definition C : str := js "C".

(** The callback of [cardNames.filter] in [getFilteredCardList]. *)
Definition keepCard (wantColorless : bool) (wubrg : list str) (card : Card)
  : bool :=
  let ci := colorIdentity card in
  if includes (typeLine card) (js "Basic Land") then true
  else if bool_decide (length wubrg = 0%nat) && negb wantColorless then true
  else if bool_decide (length ci = 0%nat)
       then wantColorless || bool_decide (length wubrg = 0%nat)
  else forallb (fun c => bool_decide (c ∈ wubrg)) ci.

(** [names.filter(f)] for a callback that may throw. *)
Fixpoint filterE (f : str -> option bool) (names : list str)
  : option (list str) :=
  match names with
  | [] => Some []
  | name :: names' =>
      match f name with
      | None => None
      | Some b =>
          match filterE f names' with
          | None => None
          | Some l => Some (if b then name :: l else l)
          end
      end
  end.

(** [getFilteredCardList()], for the globals [cardNames], [cardDataMap] and
    [selectedColors]. *)
Definition getFilteredCardList (cat : Catalog) (selectedColors : gset str)
  : option (list str) :=
  let colors := elements selectedColors in
  let wantColorless := bool_decide (C ∈ colors) in
  let wubrg := filter (fun c => c ≠ C) colors in
  filterE (fun name =>
             match cardDataMap cat !! name with
             | None => None
             | Some card => Some (keepCard wantColorless wubrg card)
             end)
          (cardNames cat).

(** *** Prompt grouping *)

(** The chain of tests that sets [baseType] in [buildCardListText]. *)
Definition baseTypeOf (tl : str) : str :=
  if includes tl (js "Creature") then js "Creature"
  else if includes tl (js "Instant") then js "Instant"
  else if includes tl (js "Sorcery") then js "Sorcery"
  else if includes tl (js "Enchantment") then js "Enchantment"
  else if includes tl (js "Artifact") then js "Artifact"
  else if includes tl (js "Planeswalker") then js "Planeswalker"
  else if includes tl (js "Land") then js "Land"
  else if includes tl (js "Battle") then js "Battle"
  else js "Other".

(** The first loop of [buildCardListText]: [groups[baseType].push(name)]. *)
Fixpoint groupNames (cat : Catalog) (names : list str)
  (groups : gmap str (list str)) : option (gmap str (list str)) :=
  match names with
  | [] => Some groups
  | name :: names' =>
      match cardDataMap cat !! name with
      | None => None
      | Some card =>
          let baseType := baseTypeOf (typeLine card) in
          groupNames cat names'
            (<[baseType := default [] (groups !! baseType) ++ [name]]> groups)
      end
  end.

Definition typeOrder : list str :=
  [js "Creature"; js "Instant"; js "Sorcery"; js "Enchantment";
   js "Artifact"; js "Planeswalker"; js "Battle"; js "Land"; js "Other"].

Definition cardLine (cat : Catalog) (name : str) : option str :=
  match cardDataMap cat !! name with
  | None => None
  | Some c =>
      Some (name ++ js " | " ++ manaCost c ++ js " | " ++ typeLine c
            ++ js " | " ++ rarity c ++ [10%N])
  end.

Fixpoint cardLines (cat : Catalog) (names : list str) : option str :=
  match names with
  | [] => Some []
  | name :: names' =>
      match cardLine cat name, cardLines cat names' with
      | Some l, Some ls => Some (l ++ ls)
      | _, _ => None
      end
  end.

Fixpoint groupBlocks (cat : Catalog) (groups : gmap str (list str))
  (types : list str) : option str :=
  match types with
  | [] => Some []
  | type :: types' =>
      match groups !! type with
      | None | Some [] => groupBlocks cat groups types'
      | Some members =>
          match cardLines cat members, groupBlocks cat groups types' with
          | Some ls, Some rest =>
              Some ([10%N] ++ js "--- " ++ type ++ js "s ("
                    ++ toString (Z.of_nat (length members)) ++ js ") ---"
                    ++ [10%N] ++ ls ++ rest)
          | _, _ => None
          end
      end
  end.

(** [buildCardListText(filteredNames)] *)
Definition buildCardListText (cat : Catalog) (filteredNames : list str)
  : option str :=
  match groupNames cat filteredNames ∅ with
  | None => None
  | Some groups => groupBlocks cat groups typeOrder
  end.

(** *** Deck-list parser *)

Record DeckEntry := mkEntry { count : Z; name : str }.

(** The value of the local [currentSection]. *)
Inductive SectionName := InDeck | InSideboard.

(** The locals of [parseDeckList] that the loop over the lines updates. *)
Record ParseState := mkParseState {
  l_deck : list DeckEntry;
  l_sideboard : list DeckEntry;
  currentSection : option SectionName;
  l_explanation : list str;
  pastDeck : bool
}.

Definition initialState : ParseState :=
  {| l_deck := []; l_sideboard := []; currentSection := None;
     l_explanation := []; pastDeck := false |}.

Definition setSection (st : ParseState) (s : SectionName) : ParseState :=
  {| l_deck := l_deck st; l_sideboard := l_sideboard st;
     currentSection := Some s;
     l_explanation := l_explanation st; pastDeck := pastDeck st |}.

Definition pushEntry (st : ParseState) (s : SectionName) (e : DeckEntry)
  : ParseState :=
  match s with
  | InDeck =>
      {| l_deck := l_deck st ++ [e]; l_sideboard := l_sideboard st;
         currentSection := currentSection st;
         l_explanation := l_explanation st; pastDeck := pastDeck st |}
  | InSideboard =>
      {| l_deck := l_deck st; l_sideboard := l_sideboard st ++ [e];
         currentSection := currentSection st;
         l_explanation := l_explanation st; pastDeck := pastDeck st |}
  end.

(** [currentSection === 'sideboard'] *)
Definition isSideboard (s : option SectionName) : bool :=
  match s with
  | Some InSideboard => true
  | _ => false
  end.

Definition nonEmpty {A} (l : list A) : bool :=
  match l with [] => false | _ => true end.

(** The two trailing [if]s of the loop body: the explanation heuristic. *)
Definition noteExplanation (st : ParseState) (isMatch : bool) (trimmed : str)
  : ParseState :=
  let pastDeck' :=
    if nonEmpty (l_deck st) && negb isMatch && nonEmpty trimmed
       && negb (isSideboard (currentSection st))
    then (if nonEmpty trimmed && negb (test_decorative trimmed)
          then true else pastDeck st)
    else pastDeck st in
  {| l_deck := l_deck st; l_sideboard := l_sideboard st;
     currentSection := currentSection st;
     l_explanation :=
       if pastDeck' && nonEmpty trimmed
       then l_explanation st ++ [trimmed] else l_explanation st;
     pastDeck := pastDeck' |}.

(** One iteration of [for (const line of lines)]. *)
Definition parseLine (st : ParseState) (line : str) : ParseState :=
  let trimmed := trim line in
  if test_word_i (js "deck") trimmed then setSection st InDeck
  else if test_word_i (js "sideboard") trimmed then setSection st InSideboard
  else
    match match_entry trimmed, currentSection st with
    | Some (ds, rest), Some s =>
        pushEntry st s {| count := parseInt ds; name := trim rest |}
    | Some _, None => noteExplanation st true trimmed
    | None, _ => noteExplanation st false trimmed
    end.

(** The state of the locals when the loop of [parseDeckList] ends. *)
Definition parseLines (text : str) : ParseState :=
  fold_left parseLine (split 10 text) initialState.

(** The object returned on success; [sideboard] is [None] for [null]. *)
Record ParsedDeck := mkParsed {
  deck : list DeckEntry;
  sideboard : option (list DeckEntry);
  explanation : str
}.

(** The result of [parseDeckList]: [NoDeck] is the object [{ deck: null }]. *)
Inductive ParseResult :=
  | NoDeck
  | Parsed (p : ParsedDeck).

Definition parseDeckList (text : str) : ParseResult :=
  let st := parseLines text in
  match l_deck st with
  | [] => NoDeck
  | _ :: _ =>
      Parsed {| deck := l_deck st;
                sideboard := match l_sideboard st with
                             | [] => None
                             | _ :: _ => Some (l_sideboard st)
                             end;
                explanation := join [10%N] (l_explanation st) |}
  end.

(** *** Deck text *)

(** [`${entry.count} ${entry.name}\n`] *)
Definition entryLine (e : DeckEntry) : str :=
  toString (count e) ++ js " " ++ name e ++ [10%N].

(** The local [text] of [displayDeck] when [currentDeckText] is set. *)
Definition deckText (parsed : ParsedDeck) : str :=
  js "Deck" ++ [10%N] ++ concat (map entryLine (deck parsed)) ++
  match sideboard parsed with
  | Some (e :: sb) =>
      [10%N] ++ js "Sideboard" ++ [10%N] ++ concat (map entryLine (e :: sb))
  | _ => []
  end.

(** The global [currentDeckText] after [displayDeck(parsed)]: the text that
    is copied to the clipboard for import. *)
Definition currentDeckText (parsed : ParsedDeck) : str :=
  trim (deckText parsed).

(** *** Deck statistics *)

(** The locals of [computeAndDisplayStats] that are displayed. *)
Record Stats := mkStats {
  totalCards : Z;
  totalCreatures : Z;
  totalLands : Z;
  totalSpells : Z;
  manaCurve : gmap str Z
}.

(** [cmcBucket] and [label] for a card. *)
Definition cmcBucket (data : Card) : Z := Z.min (Qfloor (cmc data)) 7.

Definition bucketLabel (b : Z) : str :=
  if 7 <=? b then js "7+" else toString b.

(** [manaCurve[k] || 0] *)
Definition curveAt (mc : gmap str Z) (k : str) : Z := default 0 (mc !! k).

(** One iteration of [for (const entry of allCards)]. *)
Definition statsEntry (dataMap : gmap str Card) (s : Stats) (entry : DeckEntry)
  : Stats :=
  let total := totalCards s + count entry in
  match dataMap !! name entry with
  | None =>
      {| totalCards := total; totalCreatures := totalCreatures s;
         totalLands := totalLands s; totalSpells := totalSpells s;
         manaCurve := manaCurve s |}
  | Some data =>
      let tl := typeLine data in
      let isLand := includes tl (js "Land") in
      let isCreature := includes tl (js "Creature") in
      {| totalCards := total;
         totalCreatures :=
           if isLand then totalCreatures s
           else if isCreature then totalCreatures s + count entry
           else totalCreatures s;
         totalLands :=
           if isLand then totalLands s + count entry else totalLands s;
         totalSpells :=
           if isLand then totalSpells s
           else if isCreature then totalSpells s
           else totalSpells s + count entry;
         manaCurve :=
           if negb isLand then
             let label := bucketLabel (cmcBucket data) in
             <[label := curveAt (manaCurve s) label + count entry]>
               (manaCurve s)
           else manaCurve s |}
  end.

(** [computeAndDisplayStats(parsed)], for [allCards = parsed.deck]: the
    totals and the mana curve when its loop ends, which it then displays. *)
Definition computeAndDisplayStats (dataMap : gmap str Card) (allCards : list DeckEntry)
  : Stats :=
  fold_left (statsEntry dataMap) allCards
    {| totalCards := 0; totalCreatures := 0; totalLands := 0;
       totalSpells := 0; manaCurve := ∅ |}.

(** The local [unrecognized]: [allCards.filter(e => !cardDataMap[e.name])]. *)
Definition unrecognized (dataMap : gmap str Card) (allCards : list DeckEntry)
  : list DeckEntry :=
  filter (fun e => ¬ is_Some (dataMap !! name e)) allCards.

(** The keys of the displayed mana curve. *)
Definition curveKeys : list str :=
  [js "0"; js "1"; js "2"; js "3"; js "4"; js "5"; js "6"; js "7+"].

(** [curveStr]: the eight buckets as displayed. *)
Definition curveStr (mc : gmap str Z) : str :=
  join (js "  ")
       (map (fun k => k ++ js ":" ++ toString (curveAt mc k)) curveKeys).

(** The sum of the displayed buckets. *)
Definition curveTotal (mc : gmap str Z) : Z :=
  fold_right Z.add 0 (map (curveAt mc) curveKeys).

End App.

(** ** The OpenAI proxies, [functions/api/chat.js] and the worker *)

Module Proxy.
Import JS.

(** A value produced by [request.json()]. A number is a finite rational. *)
Inductive JSON :=
  | JNull
  | JBool (b : bool)
  | JNum (q : Q)
  | JStr (s : str)
  | JArr (items : list JSON)
  | JObj (fields : list (str * JSON)).

(** The last binding of a key: [JSON.parse] keeps the last duplicate. *)
Fixpoint lookupField (key : str) (fields : list (str * JSON))
  : option JSON :=
  match fields with
  | [] => None
  | (k, v) :: fields' =>
      match lookupField key fields' with
      | Some v' => Some v'
      | None => if bool_decide (k = key) then Some v else None
      end
  end.

(** [body.key] for one of the keys [messages], [model], [temperature],
    [max_tokens]. The outer [None] is the [TypeError] on [null]; the inner
    [None] is [undefined], which is also what a number, a boolean, a string
    or an array gives for these keys. *)
Definition getProp (body : JSON) (key : str) : option (option JSON) :=
  match body with
  | JNull => None
  | JObj fields => Some (lookupField key fields)
  | _ => Some None
  end.

(** Truthiness of a property value, as [||] tests it. *)
Definition truthy (v : option JSON) : bool :=
  match v with
  | None | Some JNull => false
  | Some (JBool b) => b
  | Some (JNum q) => negb (Qeq_bool q 0)
  | Some (JStr s) => match s with [] => false | _ => true end
  | Some (JArr _) | Some (JObj _) => true
  end.

(** A JavaScript number: [NaN] or a finite value. *)
Inductive Num :=
  | NaN
  | Fin (q : Q).

(** [Math.min(x, 8000)] *)
Definition Math_min_8000 (x : Num) : Num :=
  match x with
  | NaN => NaN
  | Fin q => if Qle_bool q 8000 then Fin q else Fin 8000
  end.

(** The object that is serialized and sent to the chat completions
    endpoint. *)
Record Payload := mkPayload {
  model : JSON;
  messages : list JSON;
  temperature : JSON;
  max_tokens : Num
}.

(** What a proxy does with a request: answer it itself with a status, or
    forward a payload and relay the answer of the service. *)
Inductive Outcome :=
  | Respond (status : Z)
  | Forward (payload : Payload).

Section Handlers.

(** [ToNumber] on a truthy string, array or object, which [Math.min]
    applies to its argument. *)
Variable ToNumber_object : JSON -> Num.

Definition ToNumber (v : JSON) : Num :=
  match v with
  | JNum q => Fin q
  | JBool b => Fin (if b then 1 else 0)
  | JNull => Fin 0
  | _ => ToNumber_object v
  end.

(** The literal [const payload = { ... }], the same in both proxies, for
    the array [msgs] found in [body.messages]. *)
Definition buildPayload (msgs : list JSON) (model temperature max_tokens
  : option JSON) : Payload :=
  {| model := if truthy model then default JNull model
              else JStr (js "gpt-4o");
     messages := msgs;
     temperature := match temperature with
                    | None | Some JNull => JNum (7 # 10)
                    | Some v => v
                    end;
     max_tokens :=
       Math_min_8000 (ToNumber (if truthy max_tokens
                                then default JNull max_tokens
                                else JNum 4000)) |}.

(** The [try] block of both proxies, for the value of [request.json()]
    ([None] when it throws); status 500 is the answer of the [catch]. *)
Definition proxyBody (parsed : option JSON) : Outcome :=
  match parsed with
  | None => Respond 500
  | Some body =>
      match getProp body (js "messages") with
      | None => Respond 500
      | Some (Some (JArr (m :: ms))) =>
          match getProp body (js "model"),
                getProp body (js "temperature"),
                getProp body (js "max_tokens") with
          | Some mo, Some te, Some mt =>
              Forward (buildPayload (m :: ms) mo te mt)
          | _, _, _ => Respond 500
          end
      | Some _ => Respond 400
      end
  end.

(** [onRequestPost(context)] of [functions/api/chat.js]; [apiKey] is
    [context.env.OPENAI_API_KEY]. *)
Definition onRequestPost (apiKey : option str) (parsed : option JSON)
  : Outcome :=
  match apiKey with
  | None | Some [] => Respond 500
  | Some _ => proxyBody parsed
  end.

Definition ALLOWED_ORIGINS : list str :=
  [js "https://mrheathv.github.io"; js "http://localhost:8000";
   js "http://127.0.0.1:8000"; js "http://localhost:8080";
   js "http://127.0.0.1:8080"].

(** [fetch(request, env)] of the worker. [origin] is the [Origin] header
    ([None] when the request has none). *)
Definition fetch (method : str) (origin : option str)
  (parsed : option JSON) : Outcome :=
  let origin := default [] origin in
  if bool_decide (method = js "OPTIONS") then Respond 204
  else if negb (bool_decide (method = js "POST")) then Respond 405
  else if negb (bool_decide (origin ∈ ALLOWED_ORIGINS)) then Respond 403
  else proxyBody parsed.

End Handlers.

(** [corsHeaders(origin)] of the worker: the value it gives to
    [Access-Control-Allow-Origin]; the other two headers are constants. *)
Definition corsHeaders (origin : str) : str :=
  if bool_decide (origin ∈ ALLOWED_ORIGINS) then origin
  else default [] (ALLOWED_ORIGINS !! 0%nat).

End Proxy.

(** ** The earlier worker, kept after [app.js] *)

Module LegacyWorker.
Import JS Proxy.

Definition ALLOWED_ORIGINS : list str :=
  [js "https://yourusername.github.io"; js "http://localhost:8080";
   js "http://127.0.0.1:8080"].

(** [getCorsHeaders(request)]: the value it gives to
    [Access-Control-Allow-Origin], for the [Origin] header of the request
    ([None] when it has none). [find] gives the first allowed origin that
    the request's origin starts with, which is tested for truthiness. *)
Definition getCorsHeaders (origin : option str) : str :=
  let origin := default [] origin in
  match List.find (fun o => startsWith origin o) ALLOWED_ORIGINS with
  | Some (_ :: _) => origin
  | _ => default [] (ALLOWED_ORIGINS !! 0%nat)
  end.

(** [fetch(request, env)]: no test of the origin, and
    [!body.messages || !Array.isArray(body.messages)] lets an empty array
    through. *)
Definition fetch (ToNumber_object : JSON -> Num) (method : str)
  (parsed : option JSON) : Outcome :=
  if bool_decide (method = js "OPTIONS") then Respond 204
  else if negb (bool_decide (method = js "POST")) then Respond 405
  else
    match parsed with
    | None => Respond 500
    | Some body =>
        match getProp body (js "messages") with
        | None => Respond 500
        | Some (Some (JArr msgs)) =>
            match getProp body (js "model"),
                  getProp body (js "temperature"),
                  getProp body (js "max_tokens") with
            | Some mo, Some te, Some mt =>
                Forward (buildPayload ToNumber_object msgs mo te mt)
            | _, _, _ => Respond 500
            end
        | Some _ => Respond 400
        end
    end.

End LegacyWorker.

(** ** The session: the globals of [app.js] and the handlers that change
    them *)

Module Session.
Import JS App.

(** An element of [conversationHistory]. The content of an assistant
    message is whatever the service sent: [None] is a content that is not a
    string. *)
Record Message := mkMessage { role : str; content : option str }.

(** The globals [selectedColors] (a [Set], in insertion order),
    [conversationHistory] and [currentDeckText]. *)
Record State := mkState {
  selectedColors : list str;
  conversationHistory : list Message;
  currentDeckText : str
}.

(** The click handler of a colour button, for its [data-color]. *)
Definition toggleColor (st : State) (color : str) : State :=
  {| selectedColors :=
       if bool_decide (color ∈ selectedColors st)
       then filter (fun c => c ≠ color) (selectedColors st)
       else selectedColors st ++ [color];
     conversationHistory := conversationHistory st;
     currentDeckText := currentDeckText st |}.

Definition SYSTEM_PROMPT : str :=
  join [10%N]
    [ js "You are an expert Magic: The Gathering deck builder specializing in MTG Arena Standard format.";
      [];
      js "IMPORTANT RULES:";
      js "1. You MUST ONLY use cards from the provided card list. Do NOT invent or hallucinate card names.";
      js "2. Every card you include MUST appear exactly as named in the provided list.";
      js "3. A Standard deck must contain exactly 60 cards in the main deck.";
      js "4. For Best-of-3, include a 15-card sideboard.";
      js "5. You may include up to 4 copies of any non-basic-land card.";
      js "6. Basic lands (Plains, Island, Swamp, Mountain, Forest) have no copy limit.";
      [];
      js "OUTPUT FORMAT " ++ [0x2014%N] ++ js " you MUST output the deck list in this exact MTG Arena import format and nothing else outside of it for the deck portion:";
      [];
      js "Deck";
      js "4 Card Name";
      js "3 Another Card";
      js "...";
      [];
      js "Sideboard";
      js "2 Sideboard Card";
      js "...";
      [];
      js "After the deck list, you may include a brief explanation of the deck strategy and card choices.";
      [];
      js "When the user asks you to modify the deck, output the COMPLETE updated deck list in the same format (not just the changes)." ].

(** The values read from the page by [generateDeck] and
    [sendChatMessage]. *)
Record Inputs := mkInputs {
  apiKeyValue : str;
  archetypeValue : str;
  formatValue : str;
  extraInstructionsValue : str;
  chatInputValue : str
}.

Definition colorNames : gmap str str :=
  {[ js "W" := js "White"; js "U" := js "Blue"; js "B" := js "Black";
     js "R" := js "Red"; js "G" := js "Green"; js "C" := js "Colorless" ]}.

(** [Array.from(selectedColors).map(c => colorNames[c]).join(', ')]; a
    symbol without a name gives [undefined], which [join] writes as the
    empty string. *)
Definition colorStr (colors : list str) : str :=
  join (js ", ") (map (fun c => default [] (colorNames !! c)) colors).

(** The template literal [userPrompt]. *)
Definition userPrompt (archetype colors format cardListText
  extraInstructions : str) : str :=
  js "Build me a Standard-legal MTG Arena " ++ archetype ++ js " deck in "
  ++ colors ++ js "." ++ [10%N]
  ++ js "Format: "
  ++ (if bool_decide (format = js "bo1")
      then js "Best of 1 (no sideboard needed)"
      else js "Best of 3 (include a 15-card sideboard)")
  ++ js "." ++ [10%N] ++ [10%N]
  ++ js "Here are ALL the legal Standard cards you may choose from (you MUST only use cards from this list):"
  ++ [10%N] ++ cardListText ++ [10%N] ++ [10%N]
  ++ (if nonEmpty extraInstructions
      then js "Additional instructions: " ++ extraInstructions else [])
  ++ [10%N] ++ [10%N]
  ++ js "Remember: output the deck in exact MTG Arena import format, then explain the strategy.".

(** What the service call gives to [callChatGPT]: [Failed] when anything
    up to reading [data.choices[0].message.content] throws (the request is
    rejected, the status is not ok, the answer is not JSON or has no
    choice), and otherwise the content read. *)
Inductive ApiResult :=
  | Failed
  | Replied (content : option str).

(** [callChatGPT(apiKey)], for the result of its request. A content that is
    not a string is pushed to the history before [parseDeckList] throws on
    it. *)
Definition callChatGPT (st : State) (result : ApiResult) : State :=
  match result with
  | Failed => st
  | Replied assistantMessage =>
      let history :=
        conversationHistory st
        ++ [ {| role := js "assistant"; content := assistantMessage |} ] in
      {| selectedColors := selectedColors st;
         conversationHistory := history;
         currentDeckText :=
           match assistantMessage with
           | None => currentDeckText st
           | Some text =>
               match parseDeckList text with
               | NoDeck => currentDeckText st
               | Parsed parsed => App.currentDeckText parsed
               end
           end |}
  end.

(** How a handler ends before the service is called, or the state in which
    it calls the service with [conversationHistory] as the messages. *)
Inductive Started :=
  | Ignored
  | Refused (message : str)
  | Threw
  | Requested (st : State).

(** [generateDeck()] up to its call of [callChatGPT]. *)
Definition generateDeck (cat : Catalog) (inputs : Inputs) (st : State)
  : Started :=
  let apiKey := trim (apiKeyValue inputs) in
  if negb (nonEmpty apiKey)
  then Refused (js "Please enter your OpenAI API key.")
  else if bool_decide (length (selectedColors st) = 0%nat)
  then Refused (js "Please select at least one color.")
  else
    let extraInstructions := trim (extraInstructionsValue inputs) in
    match getFilteredCardList cat (list_to_set (selectedColors st)) with
    | None => Threw
    | Some filteredNames =>
        match buildCardListText cat filteredNames with
        | None => Threw
        | Some cardListText =>
            Requested
              {| selectedColors := selectedColors st;
                 conversationHistory :=
                   [ {| role := js "system"; content := Some SYSTEM_PROMPT |};
                     {| role := js "user";
                        content :=
                          Some (userPrompt (archetypeValue inputs)
                                  (colorStr (selectedColors st))
                                  (formatValue inputs) cardListText
                                  extraInstructions) |} ];
                 currentDeckText := currentDeckText st |}
        end
    end.

(** [sendChatMessage()] up to its call of [callChatGPT]. *)
Definition sendChatMessage (inputs : Inputs) (st : State) : Started :=
  let text := trim (chatInputValue inputs) in
  if negb (nonEmpty text) then Ignored
  else if negb (nonEmpty (trim (apiKeyValue inputs)))
  then Refused (js "Please enter your OpenAI API key.")
  else
    Requested
      {| selectedColors := selectedColors st;
         conversationHistory :=
           conversationHistory st
           ++ [ {| role := js "user"; content := Some text |} ];
         currentDeckText := currentDeckText st |}.

(** A handler and the answer of the service to the request it makes, if it
    makes one. *)
Definition finish (st : State) (started : Started) (result : ApiResult)
  : State :=
  match started with
  | Requested st' => callChatGPT st' result
  | _ => st
  end.

End Session.

(** ** Notions of the specification *)

Module Spec.
Import JS App.

(** First match over an ordered keyword list, with default "Other". *)
Fixpoint firstKeyword (keywords : list str) (tl : str) : str :=
  match keywords with
  | [] => js "Other"
  | k :: keywords' =>
      if includes tl k then k else firstKeyword keywords' tl
  end.

(** The keyword order that the specification gives for the prompt
    assembler. *)
Definition specKeywords : list str :=
  [js "Creature"; js "Instant"; js "Sorcery"; js "Enchantment";
   js "Artifact"; js "Planeswalker"; js "Battle"; js "Land"].

(** The keyword order of the chain of tests in [buildCardListText]. *)
Definition testedKeywords : list str :=
  [js "Creature"; js "Instant"; js "Sorcery"; js "Enchantment";
   js "Artifact"; js "Planeswalker"; js "Land"; js "Battle"].



Definition newline : str := [10%N].


(** The entries recorded so far, in the main deck or in the sideboard. *)
Definition recorded (st : ParseState) : list DeckEntry :=
  l_deck st ++ l_sideboard st.

(** A card name as the parser records it: trimmed, not empty, and without
    line terminators. *)
Definition recordedName (n : str) : Prop :=
  trim n = n ∧ n ≠ [] ∧ ∀ c, c ∈ n → isLineTerminator c = false.

(** The reply text of the parsing scenario:
    "Deck\n4 Mountain\n2 Shock\n\nSideboard\n1 Negate\n\nThis deck is
    aggressive." *)
Definition scenarioReply : str :=
  js "Deck" ++ newline ++ js "4 Mountain" ++ newline ++ js "2 Shock"
  ++ newline ++ newline ++ js "Sideboard" ++ newline ++ js "1 Negate"
  ++ newline ++ newline ++ js "This deck is aggressive.".

(** A request body with a message and a [max_tokens] of zero:
    [{"messages": ["hi"], "max_tokens": 0}]. *)
Definition zeroTokensBody : Proxy.JSON :=
  Proxy.JObj [ (js "messages", Proxy.JArr [Proxy.JStr (js "hi")]);
               (js "max_tokens", Proxy.JNum 0) ].

(** The [max_tokens] that the specification gives for a request: the
    smaller of 8000 and the requested number, or 4000 when the request has
    none. It says nothing of a [max_tokens] that is not a number. *)
Definition specMaxTokens (requested : option Proxy.JSON) : option Proxy.Num :=
  match requested with
  | None => Some (Proxy.Fin 4000)
  | Some (Proxy.JNum q) =>
      Some (Proxy.Fin (if Qle_bool q 8000 then q else 8000))
  | Some _ => None
  end.

(** Once the explanation has started the deck is not empty, and once the
    deck is not empty the parser is in a section. *)
Definition explanationInvariant (st : ParseState) : Prop :=
  (pastDeck st = true → l_deck st ≠ [])
  ∧ (l_deck st ≠ [] → currentSection st ≠ None).

(** An ASCII capital letter made small; any other code unit as it is. *)
Definition asciiLower (c : N) : N :=
  if ((65 <=? c) && (c <=? 90))%N then (c + 32)%N else c.

(** An entry as the parser records it. *)
Definition recordedEntry (e : DeckEntry) : Prop :=
  0 ≤ count e ∧ recordedName (name e).




(** The cards and the catalog of the scenarios. *)
Definition shock : Card :=
  {| colorIdentity := [js "R"]; typeLine := js "Instant";
     manaCost := js "{R}"; cmc := 1; rarity := js "common";
     oracleText := []; keywords := [] |}.

Definition mountain : Card :=
  {| colorIdentity := [js "R"]; typeLine := js "Basic Land - Mountain";
     manaCost := []; cmc := 0; rarity := js "common";
     oracleText := []; keywords := [] |}.

Definition negate : Card :=
  {| colorIdentity := [js "U"]; typeLine := js "Instant";
     manaCost := js "{1}{U}"; cmc := 2; rarity := js "common";
     oracleText := []; keywords := [] |}.

Definition golem : Card :=
  {| colorIdentity := []; typeLine := js "Artifact Creature - Golem";
     manaCost := js "{5}"; cmc := 5; rarity := js "uncommon";
     oracleText := []; keywords := [] |}.

Definition catalog : Catalog :=
  {| cardNames := [js "Golem"; js "Mountain"; js "Negate"; js "Shock"];
     cardDataMap := {[ js "Golem" := golem; js "Mountain" := mountain;
                       js "Negate" := negate; js "Shock" := shock ]} |}.

End Spec.

(** * Properties *)

Import JS App Spec.

(** ** Colour filter *)

Section ColorFilter.

Lemma filterE_total (f : str -> option bool) (g : str -> bool)
  (names : list str) :
  (∀ n, n ∈ names → f n = Some (g n)) →
  filterE f names = Some (List.filter g names).
Proof.
  induction names as [|n names IH]; intros Hf; simpl; [done|].
  rewrite (Hf n) by set_solver.
  rewrite IH by (intros; apply Hf; set_solver).
  by destruct (g n).
Qed.

Lemma loadRow_names JSON_parse (rows : list Row) (cat : Catalog) :
  cardNames (fold_left (loadRow JSON_parse) rows cat)
  = cardNames cat ++ map row_name rows.
Proof.
  revert cat. induction rows as [|r rows IH]; intros cat; simpl.
  - by rewrite app_nil_r.
  - rewrite IH. simpl. by rewrite <- app_assoc.
Qed.

(** Every name of a loaded catalog has its card in [cardDataMap]. *)
Lemma loadRow_defined JSON_parse (rows : list Row) (cat : Catalog) :
  (∀ n, n ∈ cardNames cat → is_Some (cardDataMap cat !! n)) →
  ∀ n, n ∈ cardNames (fold_left (loadRow JSON_parse) rows cat) →
       is_Some (cardDataMap (fold_left (loadRow JSON_parse) rows cat) !! n).
Proof.
  revert cat. induction rows as [|r rows IH]; intros cat Hcat; simpl; [done|].
  apply IH. intros n. simpl. rewrite elem_of_app, list_elem_of_singleton.
  destruct (decide (row_name r = n)) as [->|Hne].
  - rewrite lookup_insert_eq. eauto.
  - rewrite lookup_insert_ne by done. intros [Hin| ->]; [auto|done].
Qed.

Lemma loadDatabase_defined JSON_parse (rows : list Row) (n : str) :
  n ∈ cardNames (loadDatabase JSON_parse rows) →
  is_Some (cardDataMap (loadDatabase JSON_parse rows) !! n).
Proof. apply loadRow_defined. simpl. set_solver. Qed.

(** The colour part of a selection, as the filter computes it. *)
Lemma elem_of_wubrg (sel : gset str) (c : str) :
  c ∈ filter (fun c => c ≠ C) (elements sel) ↔ c ∈ sel ∖ {[C]}.
Proof.
  rewrite list_elem_of_filter, elem_of_elements, elem_of_difference.
  by rewrite elem_of_singleton, (comm and).
Qed.

Lemma wubrg_empty (sel : gset str) :
  length (filter (fun c => c ≠ C) (elements sel)) = 0%nat ↔ sel ∖ {[C]} = ∅.
Proof.
  rewrite length_zero_iff_nil. split.
  - intros H. apply set_eq. intros c. rewrite <- elem_of_wubrg, H. set_solver.
  - intros H. apply elem_of_nil_inv. intros c.
    rewrite elem_of_wubrg, H. set_solver.
Qed.

(** The decision of the filter callback on one card, in the terms of the
    selection. *)
Lemma keepCard_spec (sel : gset str) (card : Card) :
  keepCard (bool_decide (C ∈ elements sel))
           (filter (fun c => c ≠ C) (elements sel)) card = true
  ↔ (includes (typeLine card) (js "Basic Land") = true
     ∨ sel = ∅
     ∨ (colorIdentity card = [] ∧ (C ∈ sel ∨ sel ∖ {[C]} = ∅))
     ∨ (colorIdentity card ≠ [] ∧
        ∀ c, c ∈ colorIdentity card → c ∈ sel ∖ {[C]})).
Proof.
  unfold keepCard.
  assert (Hsel : sel = ∅ ↔ sel ∖ {[C]} = ∅ ∧ C ∉ sel) by set_solver.
  destruct (includes (typeLine card) (js "Basic Land")); [naive_solver|].
  rewrite <- (length_zero_iff_nil (colorIdentity card)).
  destruct (bool_decide (length (filter _ (elements sel)) = 0%nat)) eqn:Hw;
    [apply bool_decide_eq_true in Hw | apply bool_decide_eq_false in Hw];
    rewrite wubrg_empty in Hw;
    (destruct (bool_decide (C ∈ elements sel)) eqn:Hc;
     [apply bool_decide_eq_true in Hc | apply bool_decide_eq_false in Hc];
     rewrite elem_of_elements in Hc); simpl.
  2: naive_solver.
  all: destruct (bool_decide (length (colorIdentity card) = 0%nat)) eqn:Hci;
    [apply bool_decide_eq_true in Hci | apply bool_decide_eq_false in Hci];
    simpl.
  all: try (rewrite forallb_forall;
            setoid_rewrite bool_decide_eq_true;
            setoid_rewrite elem_of_wubrg;
            setoid_rewrite <- list_elem_of_In).
  all: naive_solver.
Qed.

End ColorFilter.

(** C1. For every loaded catalog and every colour selection, the filter
    returns a list, and a name is in it if and only if it is a name of the
    catalog whose card is a basic land by its type line, or the selection is
    empty, or the card's colour identity is empty and the selection has the
    colourless marker or nothing but it, or the card's colour identity is
    non-empty and each of its symbols is in the selection minus the
    colourless marker. *)
Theorem getFilteredCardList_includes_iff
  (JSON_parse : str -> option (list str)) (rows : list Row)
  (selection : gset str) :
  ∃ result,
    getFilteredCardList (loadDatabase JSON_parse rows) selection = Some result
    ∧ ∀ name, name ∈ result ↔
        ∃ card,
          name ∈ cardNames (loadDatabase JSON_parse rows)
          ∧ cardDataMap (loadDatabase JSON_parse rows) !! name = Some card
          ∧ (includes (typeLine card) (js "Basic Land") = true
             ∨ selection = ∅
             ∨ (colorIdentity card = []
                ∧ (C ∈ selection ∨ selection ∖ {[C]} = ∅))
             ∨ (colorIdentity card ≠ []
                ∧ ∀ c, c ∈ colorIdentity card → c ∈ selection ∖ {[C]})).
Proof.
  set (cat := loadDatabase JSON_parse rows).
  set (wc := bool_decide (C ∈ elements selection)).
  set (wubrg := filter (fun c => c ≠ C) (elements selection)).
  set (g := fun n => match cardDataMap cat !! n with
                     | Some card => keepCard wc wubrg card
                     | None => false
                     end).
  exists (List.filter g (cardNames cat)). split.
  - unfold getFilteredCardList. apply filterE_total.
    intros n Hn. unfold g.
    destruct (loadDatabase_defined JSON_parse rows n Hn) as [card Hcard].
    fold cat in Hcard. by rewrite Hcard.
  - intros n. rewrite list_elem_of_In, filter_In, <- list_elem_of_In.
    unfold g. split.
    + intros [Hin Hk]. destruct (cardDataMap cat !! n) as [card|] eqn:Hcard;
        [|done].
      exists card. split_and!; [done..|]. by apply keepCard_spec.
    + intros (card & Hin & Hcard & Hcond). rewrite Hcard. split; [done|].
      by apply keepCard_spec.
Qed.

(** ** Prompt grouping *)

(** The chain of tests is a first match over [testedKeywords]. *)
Lemma baseTypeOf_firstKeyword (tl : str) :
  baseTypeOf tl = firstKeyword testedKeywords tl.
Proof.
  unfold baseTypeOf, testedKeywords. simpl.
  repeat match goal with |- context [includes tl ?k] =>
    destruct (includes tl k) end; reflexivity.
Qed.

(** The grouping loop files every name under the category of its card, and
    under no other: each group is the names of its category, in order. *)
Lemma groupNames_by_category (cat : Catalog) (names : list str)
  (groups groups' : gmap str (list str)) (type : str) :
  groupNames cat names groups = Some groups' →
  default [] (groups' !! type)
  = default [] (groups !! type)
    ++ filter (fun n => baseTypeOf ∘ typeLine <$> cardDataMap cat !! n
                        = Some type) names.
Proof.
  revert groups. induction names as [|n names IH]; intros groups; simpl.
  - intros [= <-]. by rewrite app_nil_r.
  - destruct (cardDataMap cat !! n) as [card|] eqn:Hcard; [|done].
    intros Hg. rewrite (IH _ Hg), filter_cons, Hcard. simpl.
    destruct (decide (baseTypeOf (typeLine card) = type)) as [<-|Hne].
    + rewrite lookup_insert_eq, decide_True by done. simpl.
      by rewrite <- app_assoc.
    + rewrite lookup_insert_ne by done.
      by rewrite decide_False by (intros [= ?]; done).
Qed.

(** C8, as stated, fails: a type line with both "Battle" and "Land" is
    classified as Land, not as the first match of the order that puts
    Battle before Land. *)
Lemma baseTypeOf_battle_land_counterexample :
  includes (js "Battle Land") (js "Battle") = true
  ∧ includes (js "Battle Land") (js "Land") = true
  ∧ baseTypeOf (js "Battle Land") = js "Land"
  ∧ baseTypeOf (js "Battle Land") ≠ js "Battle"
  ∧ baseTypeOf (js "Battle Land")
    ≠ firstKeyword specKeywords (js "Battle Land").
Proof. vm_compute. split_and!; congruence. Qed.

(** C8, amended. A type line is classified by the first match of the
    ordered list Creature, Instant, Sorcery, Enchantment, Artifact,
    Planeswalker, Land, Battle, with default "Other", so into exactly one
    of the nine categories; a type line with both "Battle" and "Land" and
    none of the six keywords before them is classified as Land. *)
Theorem baseTypeOf_first_match (tl : str) :
  baseTypeOf tl = firstKeyword testedKeywords tl
  ∧ baseTypeOf tl ∈ typeOrder
  ∧ ((∀ k, k ∈ take 6 testedKeywords → includes tl k = false) →
     includes tl (js "Battle") = true →
     includes tl (js "Land") = true →
     baseTypeOf tl = js "Land").
Proof.
  split_and!.
  - apply baseTypeOf_firstKeyword.
  - unfold baseTypeOf, typeOrder.
    repeat match goal with |- context [includes tl ?k] =>
      destruct (includes tl k) end; set_solver.
  - intros Hnone _ Hland. rewrite baseTypeOf_firstKeyword.
    unfold testedKeywords in *. simpl in *.
    rewrite !Hnone by set_solver. by rewrite Hland.
Qed.

Lemma baseTypeOf_first_match_witness :
  baseTypeOf (js "Battle Land") = js "Land".
Proof.
  apply (baseTypeOf_first_match (js "Battle Land")).
  - intros k Hk. simpl in Hk.
    repeat (apply elem_of_cons in Hk as [->|Hk]; [by vm_compute|]).
    by apply elem_of_nil in Hk.
  - by vm_compute.
  - by vm_compute.
Defined.

(** ** Deck statistics *)

Section StatsEngine.

Variable dataMap : gmap str Card.












End StatsEngine.




(** The assumption on cmc is needed: a negative cmc is counted under a key
    that is not one of the eight displayed buckets. *)
Example curve_sum_negative_cmc :
  let dataMap : gmap str Card :=
    {[ js "Odd" := {| colorIdentity := []; typeLine := js "Artifact";
                      manaCost := []; cmc := -1; rarity := [];
                      oracleText := []; keywords := [] |} ]} in
  let s := computeAndDisplayStats dataMap [ {| count := 4; name := js "Odd" |} ] in
  manaCurve s !! js "-1" = Some 4 ∧ curveTotal (manaCurve s) = 0
  ∧ totalCards s - totalLands s = 4.
Proof. by vm_compute. Qed.





(** ** Facts about the string primitives *)

Section StringFacts.

Implicit Types (s t : str) (c : N) (p : N -> bool).

Lemma takeWhile_dropWhile p s : takeWhile p s ++ dropWhile p s = s.
Proof.
  induction s as [|c s IH]; simpl; [done|].
  destruct (p c); simpl; [by rewrite IH|done].
Qed.

Lemma takeWhile_forallb p s : forallb p (takeWhile p s) = true.
Proof.
  induction s as [|c s IH]; simpl; [done|].
  destruct (p c) eqn:Hc; simpl; [by rewrite Hc|done].
Qed.

Lemma dropWhile_head p s c t : dropWhile p s = c :: t → p c = false.
Proof.
  induction s as [|d s IH]; simpl; [done|].
  destruct (p d) eqn:Hd; [done|]. by intros [= -> _].
Qed.

Lemma dropWhile_elem p s c : c ∈ dropWhile p s → c ∈ s.
Proof.
  induction s as [|d s IH]; simpl; [done|].
  destruct (p d); [|done]. intros H. apply elem_of_cons. right. by apply IH.
Qed.

Lemma takeWhile_app_stop p s c t :
  forallb p s = true → p c = false → takeWhile p (s ++ c :: t) = s.
Proof.
  induction s as [|d s IH]; simpl; intros Hs Hc.
  - by rewrite Hc.
  - apply andb_true_iff in Hs as [Hd Hs]. by rewrite Hd, IH.
Qed.

Lemma dropWhile_app_stop p s c t :
  forallb p s = true → p c = false → dropWhile p (s ++ c :: t) = c :: t.
Proof.
  induction s as [|d s IH]; simpl; intros Hs Hc.
  - by rewrite Hc.
  - apply andb_true_iff in Hs as [Hd Hs]. by rewrite Hd, IH.
Qed.

Lemma dropWhile_stop p c t : p c = false → dropWhile p (c :: t) = c :: t.
Proof. intros Hc. simpl. by rewrite Hc. Qed.

(** [trimEnd], one code unit at a time from the right. *)
Lemma trimEnd_snoc s c :
  trimEnd (s ++ [c]) = if isWhiteSpace c then trimEnd s else s ++ [c].
Proof.
  unfold trimEnd. rewrite rev_app_distr. simpl.
  destruct (isWhiteSpace c); [done|].
  simpl. by rewrite rev_involutive.
Qed.

Lemma trimEnd_nil : trimEnd [] = [].
Proof. reflexivity. Qed.

(** The last code unit of a right-trimmed string is not white space. *)
Lemma trimEnd_last s t c : trimEnd s = t ++ [c] → isWhiteSpace c = false.
Proof.
  induction s as [|d s IH] using rev_ind.
  - rewrite trimEnd_nil. by destruct t.
  - rewrite trimEnd_snoc. destruct (isWhiteSpace d) eqn:Hd; [done|].
    intros H. apply app_inj_tail in H as [_ <-]. done.
Qed.

Lemma trimEnd_elem s c : c ∈ trimEnd s → c ∈ s.
Proof.
  induction s as [|d s IH] using rev_ind; [done|].
  rewrite trimEnd_snoc. destruct (isWhiteSpace d); [|done].
  intros H. apply elem_of_app. left. by apply IH.
Qed.

(** A right trim keeps the first code unit of what it leaves. *)
Lemma trimEnd_cons_head s c t : trimEnd s = c :: t → ∃ s', s = c :: s'.
Proof.
  induction s as [|d s IH] using rev_ind.
  - by rewrite trimEnd_nil.
  - rewrite trimEnd_snoc. destruct (isWhiteSpace d).
    + intros H. destruct (IH H) as [s' ->]. by exists (s' ++ [d]).
    + destruct s as [|e s]; simpl; intros [= -> _]; eauto.
Qed.

Lemma trimEnd_fixed s c : isWhiteSpace c = false → trimEnd (s ++ [c]) = s ++ [c].
Proof. intros Hc. by rewrite trimEnd_snoc, Hc. Qed.

Lemma trim_last s t c : trim s = t ++ [c] → isWhiteSpace c = false.
Proof. apply trimEnd_last. Qed.

Lemma trim_head s c t : trim s = c :: t → isWhiteSpace c = false.
Proof.
  unfold trim. intros H. apply trimEnd_cons_head in H as [s' H].
  by apply dropWhile_head in H.
Qed.

Lemma trim_elem s c : c ∈ trim s → c ∈ s.
Proof.
  unfold trim, trimStart. intros H.
  by apply trimEnd_elem, dropWhile_elem in H.
Qed.

(** A string that starts and ends with code units that are not white space
    is its own trim. *)
Lemma trim_fixed c s d :
  isWhiteSpace c = false → isWhiteSpace d = false →
  trim (c :: s ++ [d]) = c :: s ++ [d].
Proof.
  intros Hc Hd. unfold trim, trimStart. rewrite dropWhile_stop by done.
  by rewrite app_comm_cons, trimEnd_fixed.
Qed.

Lemma trim_fixed_one c : isWhiteSpace c = false → trim [c] = [c].
Proof.
  intros Hc. unfold trim, trimStart. rewrite dropWhile_stop by done.
  exact (trimEnd_fixed [] c Hc).
Qed.

(** The trim of a string that starts with a code unit that is not white
    space is not empty. *)
Lemma trim_cons_nonempty c s : isWhiteSpace c = false → trim (c :: s) ≠ [].
Proof.
  intros Hc. unfold trim, trimStart. rewrite dropWhile_stop by done.
  revert c Hc. induction s as [|d s IH] using rev_ind; intros c Hc.
  - by rewrite (trimEnd_fixed [] c Hc : trimEnd [c] = [c]).
  - rewrite app_comm_cons, trimEnd_snoc.
    destruct (isWhiteSpace d); [by apply IH|done].
Qed.


Lemma isDigit_range c : isDigit c = true ↔ (48 ≤ c ≤ 57)%N.
Proof.
  unfold isDigit. by rewrite andb_true_iff, !N.leb_le.
Qed.

Lemma isDigit_not_space c : isDigit c = true → isWhiteSpace c = false.
Proof.
  rewrite isDigit_range. intros Hc.
  unfold isWhiteSpace, isLineTerminator.
  repeat match goal with |- context [(c =? ?k)%N] =>
    rewrite (proj2 (N.eqb_neq c k)) by lia end.
  rewrite (proj2 (N.leb_gt _ c)) by lia. reflexivity.
Qed.

Lemma not_space_not_terminator c :
  isWhiteSpace c = false → isLineTerminator c = false.
Proof.
  unfold isWhiteSpace. destruct (isLineTerminator c); [|done].
  by rewrite orb_true_r.
Qed.

End StringFacts.

(** ** Facts about numbers in decimal *)

Section DecimalFacts.

Lemma parseInt_snoc (ds : str) (c : N) :
  parseInt (ds ++ [c]) = 10 * parseInt ds + digitValue c.
Proof. unfold parseInt. by rewrite fold_left_app. Qed.

Lemma digitValue_range (c : N) : isDigit c = true → 0 ≤ digitValue c ≤ 9.
Proof. rewrite isDigit_range. unfold digitValue. lia. Qed.

(** The value of a digit run is not negative, and it is zero exactly when
    all its digits are "0". *)
Lemma parseInt_digits (ds : str) :
  forallb isDigit ds = true →
  0 ≤ parseInt ds ∧ (parseInt ds = 0 ↔ ∀ c, c ∈ ds → c = 48%N).
Proof.
  induction ds as [|c ds IH] using rev_ind; intros Hds.
  - split; [done|]. split; [|done]. intros _ c Hc. by apply elem_of_nil in Hc.
  - rewrite forallb_app in Hds. simpl in Hds.
    apply andb_true_iff in Hds as [Hds Hc]. rewrite andb_true_r in Hc.
    destruct (IH Hds) as [Hpos Hzero]. rewrite parseInt_snoc.
    pose proof (digitValue_range c Hc) as Hv. split; [lia|]. split.
    + intros H0 d Hd. apply elem_of_app in Hd as [Hd|Hd].
      * apply Hzero; [lia|done].
      * apply list_elem_of_singleton in Hd as ->.
        unfold digitValue in *. lia.
    + intros Hall.
      assert (parseInt ds = 0) as ->
        by (apply Hzero; intros d Hd; apply Hall, elem_of_app; by left).
      rewrite (Hall c) by (apply elem_of_app; right; by left). done.
Qed.




End DecimalFacts.

(** ** Facts about lines and entry lines *)

Section LineFacts.

Implicit Types (s t ds : str) (c : N).




Lemma nonempty_shape {A} (l : list A) :
  l ≠ [] → (∃ a, l = [a]) ∨ ∃ a m b, l = a :: m ++ [b].
Proof.
  destruct l as [|a l]; [done|]. intros _.
  destruct l as [|b l _] using rev_ind; [left; eauto|right; eauto].
Qed.

Lemma trim_idem s : trim (trim s) = trim s.
Proof.
  destruct (decide (trim s = [])) as [->|Hne]; [done|].
  destruct (nonempty_shape _ Hne) as [[a Ha]|(a & m & b & Hs)].
  - rewrite Ha. apply trim_fixed_one. by apply (trim_head s a []).
  - rewrite Hs. apply trim_fixed.
    + by apply (trim_head s a (m ++ [b])).
    + apply (trim_last s (a :: m) b). by rewrite Hs.
Qed.




(** The case folding of the flag [i] identifies an ASCII capital with its
    small letter and with nothing else. *)
Lemma canonicalize_letter (c u : N) :
  (65 ≤ u ≤ 90)%N → canonicalize c = u ↔ c = u ∨ c = (u + 32)%N.
Proof.
  intros Hu. unfold canonicalize.
  destruct ((97 <=? c) && (c <=? 122))%N eqn:Hc.
  - apply andb_true_iff in Hc as [H1 H2].
    apply N.leb_le in H1, H2. lia.
  - apply andb_false_iff in Hc as [Hc|Hc]; apply N.leb_gt in Hc; lia.
Qed.

(** The entry matcher accepts exactly the strings of the pattern
    [^(\d+)x?\s+(.+)$]: digits, an optional "x", white space, and a rest
    without line terminators. *)
Lemma match_rest_sound t rest :
  match_rest t = Some rest →
  ∃ ws, t = ws ++ rest ∧ ws ≠ [] ∧ forallb isWhiteSpace ws = true
        ∧ rest ≠ []
        ∧ forallb (λ c, negb (isLineTerminator c)) rest = true.
Proof.
  unfold match_rest.
  pose proof (takeWhile_forallb isWhiteSpace t) as Hws.
  pose proof (takeWhile_dropWhile isWhiteSpace t) as Ht.
  destruct (takeWhile isWhiteSpace t) as [|w ws'] eqn:Hw; [done|].
  destruct (dropWhile isWhiteSpace t) as [|c u] eqn:Hu.
  - destruct ws' as [|w' ws''] using rev_ind; [done|].
    rewrite rev_app_distr. simpl.
    destruct (isLineTerminator w') eqn:Hlt; [done|]. intros [= <-].
    exists (w :: ws''). rewrite app_nil_r in Ht.
    rewrite app_comm_cons, forallb_app in Hws.
    apply andb_true_iff in Hws as [Hws _].
    split_and!; try done. simpl. by rewrite Hlt.
  - destruct (forallb _ (c :: u)) eqn:Hlt; [|done]. intros [= <-].
    by exists (w :: ws').
Qed.

Lemma match_rest_complete ws rest :
  ws ≠ [] → forallb isWhiteSpace ws = true → rest ≠ [] →
  forallb (λ c, negb (isLineTerminator c)) rest = true →
  is_Some (match_rest (ws ++ rest)).
Proof.
  intros Hne Hws Hrest Hlt. unfold match_rest.
  pose proof (takeWhile_dropWhile isWhiteSpace rest) as Hsplit.
  assert (takeWhile isWhiteSpace (ws ++ rest)
          = ws ++ takeWhile isWhiteSpace rest) as ->.
  { clear Hne. induction ws as [|w ws IH]; simpl in *; [done|].
    apply andb_true_iff in Hws as [-> Hws]. by rewrite IH. }
  assert (dropWhile isWhiteSpace (ws ++ rest) = dropWhile isWhiteSpace rest)
    as ->.
  { clear Hne. induction ws as [|w ws IH]; simpl in *; [done|].
    apply andb_true_iff in Hws as [-> Hws]. by rewrite IH. }
  destruct ws as [|w ws]; [done|]. simpl.
  destruct (dropWhile isWhiteSpace rest) as [|c u] eqn:Hu.
  - rewrite app_nil_r in Hsplit. rewrite Hsplit.
    destruct (exists_last Hrest) as (r' & e & ->).
    rewrite app_assoc, rev_app_distr. simpl.
    rewrite forallb_app in Hlt. simpl in Hlt.
    apply andb_true_iff in Hlt as [_ Hlt]. rewrite andb_true_r in Hlt.
    destruct (isLineTerminator e); [done|eauto].
  - assert (forallb (λ c0, negb (isLineTerminator c0)) (c :: u) = true) as ->;
      [|eauto].
    rewrite <- Hsplit, forallb_app in Hlt.
    by apply andb_true_iff in Hlt as [_ ?].
Qed.

Lemma match_entry_sound s ds rest :
  match_entry s = Some (ds, rest) →
  ∃ x ws, s = ds ++ x ++ ws ++ rest
          ∧ ds ≠ [] ∧ forallb isDigit ds = true
          ∧ (x = [] ∨ x = [120%N])
          ∧ ws ≠ [] ∧ forallb isWhiteSpace ws = true
          ∧ rest ≠ []
          ∧ forallb (λ c, negb (isLineTerminator c)) rest = true.
Proof.
  unfold match_entry.
  pose proof (takeWhile_forallb isDigit s) as Hds.
  pose proof (takeWhile_dropWhile isDigit s) as Hs.
  destruct (takeWhile isDigit s) as [|d ds'] eqn:Htake; [done|].
  destruct (match_rest _) as [name|] eqn:Hrest; [|done].
  intros [= <- <-].
  apply match_rest_sound in Hrest as (ws & Ht & Hne & Hws & Hn & Hlt).
  destruct (dropWhile isDigit s) as [|c r'] eqn:Hr.
  - by destruct ws.
  - destruct (c =? 120)%N eqn:Hc.
    + apply N.eqb_eq in Hc as ->. exists [120%N], ws.
      rewrite <- Hs, Ht. by split_and!; auto.
    + exists [], ws. rewrite <- Hs, Ht. by split_and!; auto.
Qed.

Lemma match_entry_complete ds x ws rest :
  ds ≠ [] → forallb isDigit ds = true → x = [] ∨ x = [120%N] →
  ws ≠ [] → forallb isWhiteSpace ws = true → rest ≠ [] →
  forallb (λ c, negb (isLineTerminator c)) rest = true →
  is_Some (match_entry (ds ++ x ++ ws ++ rest)).
Proof.
  intros Hne Hds Hx Hwne Hws Hrne Hlt.
  pose proof (match_rest_complete ws rest Hwne Hws Hrne Hlt) as [n Hn].
  unfold match_entry.
  destruct ws as [|w ws']; [done|]. simpl in Hws.
  apply andb_true_iff in Hws as [Hw Hws].
  assert (isDigit w = false) as Hwd.
  { destruct (isDigit w) eqn:Hd; [|done].
    apply isDigit_not_space in Hd. congruence. }
  destruct Hx as [-> | ->]; simpl app in *.
  - rewrite takeWhile_app_stop, dropWhile_app_stop by done.
    destruct ds as [|d ds']; [done|].
    assert ((w =? 120)%N = false) as ->.
    { apply N.eqb_neq. intros ->. by vm_compute in Hw. }
    rewrite Hn. eauto.
  - rewrite takeWhile_app_stop, dropWhile_app_stop by done.
    destruct ds as [|d ds']; [done|].
    change ((120 =? 120)%N) with true. cbv iota. rewrite Hn. eauto.
Qed.

(** What a match of the entry pattern on a trimmed line captures. *)
Lemma match_entry_captures line ds rest :
  match_entry (trim line) = Some (ds, rest) →
  ds ≠ [] ∧ forallb isDigit ds = true ∧ recordedName (trim rest).
Proof.
  unfold match_entry.
  pose proof (takeWhile_forallb isDigit (trim line)) as Hds.
  pose proof (takeWhile_dropWhile isDigit (trim line)) as Hline.
  destruct (takeWhile isDigit (trim line)) as [|d ds'] eqn:Htake; [done|].
  set (r := dropWhile isDigit (trim line)) in *.
  set (t := match r with
            | c :: r' => if (c =? 120)%N then r' else r
            | [] => r
            end).
  assert (∃ pre, trim line = pre ++ t) as [pre Hpre].
  { subst t. destruct r as [|c r'] eqn:Hr.
    - exists (d :: ds'). by rewrite <- Hline.
    - destruct (c =? 120)%N.
      + exists ((d :: ds') ++ [c]). by rewrite <- app_assoc, <- Hline.
      + exists (d :: ds'). by rewrite <- Hline. }
  clearbody t. unfold match_rest.
  pose proof (takeWhile_forallb isWhiteSpace t) as Hws.
  pose proof (takeWhile_dropWhile isWhiteSpace t) as Ht.
  destruct (takeWhile isWhiteSpace t) as [|w ws'] eqn:Hw; [done|].
  destruct (dropWhile isWhiteSpace t) as [|c u] eqn:Hu.
  - (* the white-space run ends the line: impossible after a trim *)
    exfalso. rewrite app_nil_r in Ht.
    destruct (exists_last (l := w :: ws') ltac:(done)) as (ws0 & e & He).
    rewrite He in Hws. rewrite forallb_app in Hws. simpl in Hws.
    apply andb_true_iff in Hws as [_ Hwe]. rewrite andb_true_r in Hwe.
    rewrite <- Ht, He, app_assoc in Hpre.
    apply trim_last in Hpre. congruence.
  - destruct (forallb (λ c0, negb (isLineTerminator c0)) (c :: u)) eqn:Hlt;
      [|done].
    intros [= <- <-]. split_and!; [done..|].
    pose proof (dropWhile_head _ _ _ _ Hu) as Hc.
    split_and!.
    + apply trim_idem.
    + by apply trim_cons_nonempty.
    + intros e He. apply trim_elem in He.
      rewrite forallb_forall in Hlt. apply list_elem_of_In in He.
      apply Hlt in He. by destruct (isLineTerminator e).
Qed.




End LineFacts.

(** ** Deck-list parser *)

Section Parser.

Implicit Types (st : ParseState) (line : str) (e : DeckEntry).

Lemma noteExplanation_lists st b t :
  l_deck (noteExplanation st b t) = l_deck st
  ∧ l_sideboard (noteExplanation st b t) = l_sideboard st
  ∧ currentSection (noteExplanation st b t) = currentSection st.
Proof. done. Qed.

(** The entry that a line adds, if it adds one. *)
Lemma parseLine_recorded st line e :
  e ∈ recorded (parseLine st line) →
  e ∈ recorded st
  ∨ ∃ ds rest, match_entry (trim line) = Some (ds, rest)
               ∧ e = {| count := parseInt ds; name := trim rest |}.
Proof.
  unfold parseLine.
  destruct (test_word_i (js "deck") (trim line)); [by left|].
  destruct (test_word_i (js "sideboard") (trim line)); [by left|].
  destruct (match_entry (trim line)) as [[ds rest]|] eqn:Hm; [|by left].
  destruct (currentSection st) as [[|]|]; [| |by left].
  - unfold recorded. simpl. rewrite !elem_of_app, list_elem_of_singleton.
    intros [[?| ->]|?]; eauto.
  - unfold recorded. simpl. rewrite !elem_of_app, list_elem_of_singleton.
    intros [?|[?| ->]]; eauto.
Qed.

Lemma parseLines_recorded (lines : list str) st e :
  e ∈ recorded (fold_left parseLine lines st) →
  e ∈ recorded st
  ∨ ∃ line ds rest, line ∈ lines
                    ∧ match_entry (trim line) = Some (ds, rest)
                    ∧ e = {| count := parseInt ds; name := trim rest |}.
Proof.
  revert st. induction lines as [|line lines IH]; intros st; simpl;
    [by left|].
  intros He. apply IH in He as [He|(l & ds & rest & Hl & Hm & ->)].
  - apply parseLine_recorded in He as [He|(ds & rest & Hm & ->)];
      [by left|].
    right. exists line, ds, rest. split_and!; [by left|done..].
  - right. exists l, ds, rest. split_and!; [by right|done..].
Qed.

(** Without a "deck" header the parser never enters the deck section, and
    the main deck stays empty. *)
Lemma parseLine_no_header st line :
  test_word_i (js "deck") (trim line) = false →
  l_deck st = [] → currentSection st ≠ Some InDeck →
  l_deck (parseLine st line) = []
  ∧ currentSection (parseLine st line) ≠ Some InDeck.
Proof.
  intros Hnot Hdeck Hsec. unfold parseLine. rewrite Hnot.
  destruct (test_word_i (js "sideboard") (trim line)); [done|].
  destruct (match_entry (trim line)) as [[ds rest]|]; [|done].
  destruct (currentSection st) as [[|]|] eqn:Hcur; simpl; rewrite ?Hcur; done.
Qed.

Lemma parseLines_no_header (lines : list str) st :
  (∀ line, line ∈ lines → test_word_i (js "deck") (trim line) = false) →
  l_deck st = [] → currentSection st ≠ Some InDeck →
  l_deck (fold_left parseLine lines st) = [].
Proof.
  revert st. induction lines as [|line lines IH]; intros st Hl Hd Hs; simpl;
    [done|].
  destruct (parseLine_no_header st line) as [Hd' Hs']; [|done..|].
  - apply Hl. by left.
  - apply IH; [|done..]. intros l Hin. apply Hl. by right.
Qed.

(** The lists of a successful result are the arrays of the loop. *)
Lemma parseDeckList_lists (text : str) (p : ParsedDeck) :
  parseDeckList text = Parsed p →
  deck p = l_deck (parseLines text)
  ∧ deck p ≠ []
  ∧ default [] (sideboard p) = l_sideboard (parseLines text)
  ∧ sideboard p ≠ Some [].
Proof.
  unfold parseDeckList.
  destruct (l_deck (parseLines text)) as [|e d] eqn:Hd; [done|].
  intros [= Hp]. subst p. simpl.
  by destruct (l_sideboard (parseLines text)).
Qed.

End Parser.

(** C2, as stated, fails: the explanation of the scenario is not "This deck
    is aggressive.". *)
Lemma scenario_explanation_counterexample :
  parseDeckList scenarioReply
  ≠ Parsed {| deck := [ {| count := 4; name := js "Mountain" |};
                        {| count := 2; name := js "Shock" |} ];
              sideboard := Some [ {| count := 1; name := js "Negate" |} ];
              explanation := js "This deck is aggressive." |}.
Proof. by vm_compute. Qed.

(** C2, amended. Parsing the reply text of the scenario succeeds and yields
    the main deck 4 Mountain, 2 Shock, the sideboard 1 Negate, and an empty
    explanation: the last line comes while the parser is in the sideboard
    section, where no explanation starts. *)
Theorem scenario_parses_with_empty_explanation :
  parseDeckList scenarioReply
  = Parsed {| deck := [ {| count := 4; name := js "Mountain" |};
                        {| count := 2; name := js "Shock" |} ];
              sideboard := Some [ {| count := 1; name := js "Negate" |} ];
              explanation := [] |}.
Proof. by vm_compute. Qed.

(** The same reply without its sideboard section keeps the explanation. *)
Example scenario_without_sideboard :
  parseDeckList (js "Deck" ++ newline ++ js "4 Mountain" ++ newline
                 ++ js "2 Shock" ++ newline ++ newline
                 ++ js "This deck is aggressive.")
  = Parsed {| deck := [ {| count := 4; name := js "Mountain" |};
                        {| count := 2; name := js "Shock" |} ];
              sideboard := None;
              explanation := js "This deck is aggressive." |}.
Proof. by vm_compute. Qed.

(** C3. The parser returns the "no deck" outcome if and only if the array
    of main-deck entries is empty when the loop over the lines ends; a text
    none of whose lines trims to "deck", in any letter case, gives that
    outcome; and the main deck of a successful parse is not empty. *)
Theorem parseDeckList_no_deck_iff (text : str) :
  (parseDeckList text = NoDeck ↔ l_deck (parseLines text) = [])
  ∧ ((∀ line, line ∈ split 10 text →
              test_word_i (js "deck") (trim line) = false) →
     parseDeckList text = NoDeck)
  ∧ (∀ p, parseDeckList text = Parsed p → deck p ≠ []).
Proof.
  assert (Hiff : parseDeckList text = NoDeck ↔ l_deck (parseLines text) = []).
  { unfold parseDeckList. by destruct (l_deck (parseLines text)). }
  split_and!; [done| |].
  - intros Hlines. apply Hiff. by apply parseLines_no_header.
  - intros p Hp. by apply parseDeckList_lists in Hp as (_ & ? & _).
Qed.

Lemma parseDeckList_no_deck_iff_witness :
  parseDeckList (js "4 Mountain" ++ newline ++ js "Decks" ++ newline
                 ++ js "2 Shock") = NoDeck.
Proof.
  apply (parseDeckList_no_deck_iff
           (js "4 Mountain" ++ newline ++ js "Decks" ++ newline
            ++ js "2 Shock")).
  intros line Hin. vm_compute in Hin.
  repeat (apply elem_of_cons in Hin as [->|Hin]; [by vm_compute|]).
  by apply elem_of_nil in Hin.
Defined.




(** ** Deck text and its re-parsing *)

Section RoundTrip.

Implicit Types (st : ParseState) (e : DeckEntry) (p : ParsedDeck).













Lemma pushEntry_section st (sec sec' : SectionName) e :
  currentSection (pushEntry st sec' e) = currentSection st.
Proof. by destruct sec'. Qed.




End RoundTrip.

Section RoundTripMain.

Implicit Types (st : ParseState) (e : DeckEntry) (p : ParsedDeck).

(** Every entry that the parser records has a count that is not negative
    and a trimmed, non-empty name without line terminators. *)
Lemma recorded_entries_wellformed (text : str) e :
  e ∈ recorded (parseLines text) → recordedEntry e.
Proof.
  intros He. apply parseLines_recorded in He
    as [He|(line & ds & rest & _ & Hm & ->)].
  - by apply elem_of_nil in He.
  - destruct (match_entry_captures line ds rest Hm) as (_ & Hds & Hn).
    split; [|done]. by apply parseInt_digits.
Qed.







End RoundTripMain.




(** ** The proxies *)

Section ProxyFacts.
Import Proxy.

Variable ToNumber_object : JSON -> Num.

(** The forwarded [max_tokens] is never above 8000. *)
Lemma Math_min_8000_bound (x : Num) (q : Q) :
  Math_min_8000 x = Fin q → (q <= 8000)%Q.
Proof.
  destruct x as [|r]; simpl; [done|].
  destruct (Qle_bool r 8000) eqn:Hr; intros [= <-].
  - by apply Qle_bool_iff.
  - apply Qle_refl.
Qed.

(** A request that is forwarded has a body with a non-empty array of
    messages, and the payload is built from the four fields of the body. *)
Lemma proxyBody_forward (parsed : option JSON) (payload : Payload) :
  proxyBody ToNumber_object parsed = Forward payload →
  ∃ body m ms mo te mt,
    parsed = Some body
    ∧ getProp body (js "messages") = Some (Some (JArr (m :: ms)))
    ∧ getProp body (js "model") = Some mo
    ∧ getProp body (js "temperature") = Some te
    ∧ getProp body (js "max_tokens") = Some mt
    ∧ payload = buildPayload ToNumber_object (m :: ms) mo te mt.
Proof.
  unfold proxyBody. destruct parsed as [body|]; [|done].
  destruct (getProp body (js "messages")) as [[[| | | |[|m ms]|]|]|]
    eqn:Hmsg; try done.
  destruct (getProp body (js "model")) as [mo|] eqn:Hmo; [|done].
  destruct (getProp body (js "temperature")) as [te|] eqn:Hte; [|done].
  destruct (getProp body (js "max_tokens")) as [mt|] eqn:Hmt; [|done].
  intros [= <-]. by exists body, m, ms, mo, te, mt.
Qed.

(** Conversely, a body with a non-empty array of messages is forwarded. *)
Lemma proxyBody_accepts (body : JSON) (m : JSON) (ms : list JSON) :
  getProp body (js "messages") = Some (Some (JArr (m :: ms))) →
  ∃ payload, proxyBody ToNumber_object (Some body) = Forward payload
             ∧ messages payload = m :: ms.
Proof.
  intros Hmsg. unfold proxyBody. rewrite Hmsg.
  destruct body; try done; simpl; eauto.
Qed.

Lemma handlers_forward (apiKey : option str) (method : str)
  (origin : option str) (parsed : option JSON) (payload : Payload) :
  onRequestPost ToNumber_object apiKey parsed = Forward payload
  ∨ fetch ToNumber_object method origin parsed = Forward payload →
  proxyBody ToNumber_object parsed = Forward payload.
Proof.
  intros [H|H].
  - unfold onRequestPost in H. by destruct apiKey as [[|c k]|].
  - unfold fetch in H.
    destruct (bool_decide (method = js "OPTIONS")); [done|].
    destruct (bool_decide (method = js "POST")); [|done].
    by destruct (bool_decide (default [] origin ∈ ALLOWED_ORIGINS)).
Qed.

End ProxyFacts.

(** C10, as stated, fails: a request with [max_tokens] 0 is accepted and
    forwarded with [max_tokens] 4000, not with min(0, 8000). *)
Lemma max_tokens_zero_counterexample :
  ∃ payload,
    Proxy.onRequestPost (fun _ => Proxy.NaN) (Some (js "sk-test"))
      (Some zeroTokensBody) = Proxy.Forward payload
    ∧ Proxy.getProp zeroTokensBody (js "max_tokens")
      = Some (Some (Proxy.JNum 0))
    ∧ Proxy.max_tokens payload = Proxy.Fin 4000
    ∧ specMaxTokens (Some (Proxy.JNum 0)) = Some (Proxy.Fin 0)
    ∧ Some (Proxy.max_tokens payload) ≠ specMaxTokens (Some (Proxy.JNum 0)).
Proof. eexists. split; [reflexivity|]. by vm_compute. Qed.

(** C10, amended. For every request that either proxy accepts, the body has
    a non-empty array of messages, which is forwarded, and the forwarded
    [max_tokens] is 4000 when the request has none or has the number zero,
    and the smaller of the requested number and 8000 when the request has a
    number other than zero; whenever it is a number it is at most 8000. The
    forwarded model is "gpt-4o" and the forwarded temperature 0.7 when the
    request has no such field. *)
Theorem proxy_payload_defaults_and_cap
  (ToNumber_object : Proxy.JSON -> Proxy.Num)
  (apiKey : option str) (method : str) (origin : option str)
  (parsed : option Proxy.JSON) (payload : Proxy.Payload) :
  Proxy.onRequestPost ToNumber_object apiKey parsed = Proxy.Forward payload
  ∨ Proxy.fetch ToNumber_object method origin parsed
    = Proxy.Forward payload →
  ∃ body msgs,
    parsed = Some body
    ∧ Proxy.getProp body (js "messages") = Some (Some (Proxy.JArr msgs))
    ∧ msgs ≠ []
    ∧ Proxy.messages payload = msgs
    ∧ (Proxy.getProp body (js "max_tokens") = Some None →
       Proxy.max_tokens payload = Proxy.Fin 4000)
    ∧ (∀ q, Proxy.getProp body (js "max_tokens") = Some (Some (Proxy.JNum q)) →
            Proxy.max_tokens payload
            = if Qeq_bool q 0 then Proxy.Fin 4000
              else Proxy.Fin (if Qle_bool q 8000 then q else 8000))
    ∧ (∀ q, Proxy.max_tokens payload = Proxy.Fin q → (q <= 8000)%Q)
    ∧ (Proxy.getProp body (js "model") = Some None →
       Proxy.model payload = Proxy.JStr (js "gpt-4o"))
    ∧ (Proxy.getProp body (js "temperature") = Some None →
       Proxy.temperature payload = Proxy.JNum (7 # 10)).
Proof.
  intros H. apply handlers_forward, proxyBody_forward in H
    as (body & m & ms & mo & te & mt & -> & Hmsg & Hmo & Hte & Hmt & ->).
  exists body, (m :: ms). rewrite Hmo, Hte, Hmt.
  split_and!; try done.
  - by intros [= ->].
  - intros q [= ->]. simpl. destruct (Qeq_bool q 0); simpl; [done|].
    by destruct (Qle_bool q 8000).
  - intros q. simpl. apply Math_min_8000_bound.
  - by intros [= ->].
  - by intros [= ->].
Qed.

Lemma proxy_payload_defaults_and_cap_witness :
  ∃ body msgs,
    Some zeroTokensBody = Some body
    ∧ Proxy.getProp body (js "messages") = Some (Some (Proxy.JArr msgs))
    ∧ msgs ≠ [].
Proof.
  destruct (proxy_payload_defaults_and_cap (fun _ => Proxy.NaN)
              (Some (js "sk-test")) (js "POST") None (Some zeroTokensBody)
              (Proxy.buildPayload (fun _ => Proxy.NaN)
                 [Proxy.JStr (js "hi")] None None (Some (Proxy.JNum 0))))
    as (body & msgs & Hb & Hm & Hne & _).
  - left. reflexivity.
  - exists body, msgs. done.
Defined.

(** ** Scenarios of the specification, run on the embedding *)

Section Scenarios.

(** A red selection keeps the red card and the basic land; the colourless
    card needs the colourless marker. *)
Example filter_red :
  getFilteredCardList catalog {[ js "R" ]} = Some [js "Mountain"; js "Shock"].
Proof. by vm_compute. Qed.

Example filter_red_colorless :
  getFilteredCardList catalog {[ js "R"; js "C" ]}
  = Some [js "Golem"; js "Mountain"; js "Shock"].
Proof. by vm_compute. Qed.

Example filter_nothing_selected :
  getFilteredCardList catalog ∅ = Some (cardNames catalog).
Proof. by vm_compute. Qed.

(** A deck of two Shock: bucket "1" holds 2, two spells, no creature. *)
Example stats_shock :
  let s := computeAndDisplayStats (cardDataMap catalog)
             [ {| count := 2; name := js "Shock" |} ] in
  manaCurve s !! js "1" = Some 2 ∧ totalSpells s = 2 ∧ totalCreatures s = 0
  ∧ totalCards s = 2 ∧ totalLands s = 0
  ∧ curveStr (manaCurve s) = js "0:0  1:2  2:0  3:0  4:0  5:0  6:0  7+:0".
Proof. by vm_compute. Qed.

(** An entry that the catalog does not have is unrecognized and counted. *)
Example stats_unrecognized :
  let d := [ {| count := 2; name := js "Shock" |};
             {| count := 3; name := js "Foo" |} ] in
  totalCards (computeAndDisplayStats (cardDataMap catalog) d) = 5
  ∧ unrecognized (cardDataMap catalog) d = [ {| count := 3; name := js "Foo" |} ].
Proof. by vm_compute. Qed.

(** The blocks of the prompt come in the order of [typeOrder]. *)
Example prompt_blocks :
  buildCardListText catalog [js "Mountain"; js "Shock"; js "Golem"]
  = Some ([10%N] ++ js "--- Creatures (1) ---" ++ [10%N]
          ++ js "Golem | {5} | Artifact Creature - Golem | uncommon" ++ [10%N]
          ++ [10%N] ++ js "--- Instants (1) ---" ++ [10%N]
          ++ js "Shock | {R} | Instant | common" ++ [10%N]
          ++ [10%N] ++ js "--- Lands (1) ---" ++ [10%N]
          ++ js "Mountain |  | Basic Land - Mountain | common" ++ [10%N]).
Proof. by vm_compute. Qed.

(** Counts may be zero-padded or followed by "x"; rules of "-" or "=" are
    skipped; the first other line after the deck starts the explanation. *)
Example parse_padded_counts :
  parseDeckList (js "DECK" ++ newline ++ js "04x   Lightning Bolt 2"
                 ++ newline ++ js "-----" ++ newline ++ js " Burn it all. ")
  = Parsed {| deck := [ {| count := 4; name := js "Lightning Bolt 2" |} ];
              sideboard := None; explanation := js "Burn it all." |}.
Proof. by vm_compute. Qed.

(** The proxies answer for themselves what they do not forward. *)
Example proxy_rejections :
  Proxy.onRequestPost (fun _ => Proxy.NaN) None (Some zeroTokensBody)
  = Proxy.Respond 500
  ∧ Proxy.onRequestPost (fun _ => Proxy.NaN) (Some (js "sk-test"))
      (Some (Proxy.JObj [ (js "messages", Proxy.JArr []) ]))
    = Proxy.Respond 400
  ∧ Proxy.onRequestPost (fun _ => Proxy.NaN) (Some (js "sk-test"))
      (Some Proxy.JNull) = Proxy.Respond 500
  ∧ Proxy.fetch (fun _ => Proxy.NaN) (js "GET") None (Some zeroTokensBody)
    = Proxy.Respond 405
  ∧ Proxy.fetch (fun _ => Proxy.NaN) (js "POST")
      (Some (js "https://example.org")) (Some zeroTokensBody)
    = Proxy.Respond 403.
Proof. by vm_compute. Qed.

End Scenarios.

(** * Further properties of the code *)

(** ** Catalog loading *)

Section CatalogFacts.

Variable JSON_parse : str -> option (list str).

Lemma loadRow_lookup (rows : list Row) (cat : Catalog) (n : str) :
  cardDataMap (fold_left (loadRow JSON_parse) rows cat) !! n
  = match last (filter (fun r => row_name r = n) rows) with
    | Some r => Some (cardOfRow JSON_parse r)
    | None => cardDataMap cat !! n
    end.
Proof.
  revert cat. induction rows as [|r rows IH]; intros cat; simpl; [done|].
  rewrite IH, filter_cons. simpl.
  destruct (decide (row_name r = n)) as [Heq|Hne].
  - rewrite last_cons.
    destruct (last (filter _ rows)); [done|].
    by rewrite Heq, lookup_insert_eq.
  - destruct (last (filter _ rows)); [done|].
    by rewrite lookup_insert_ne.
Qed.

End CatalogFacts.

(** X1. A loaded catalog lists the names of the rows in row order, one per
    row, and the card found under a name is the card of the last row that
    has this name; a name of no row has no card. *)
Theorem loadDatabase_names_and_last_row
  (JSON_parse : str -> option (list str)) (rows : list Row) :
  cardNames (loadDatabase JSON_parse rows) = map row_name rows
  ∧ ∀ n, cardDataMap (loadDatabase JSON_parse rows) !! n
         = cardOfRow JSON_parse
             <$> last (filter (fun r => row_name r = n) rows).
Proof.
  split.
  - unfold loadDatabase. by rewrite loadRow_names.
  - intros n. unfold loadDatabase. rewrite loadRow_lookup. simpl.
    by destruct (last _).
Qed.

(** ** Colour filter *)

Section FilterFacts.

Lemma filterE_sublist (f : str -> option bool) (names l : list str) :
  filterE f names = Some l → l `sublist_of` names.
Proof.
  revert l. induction names as [|n names IH]; intros l; simpl.
  - intros [= <-]. constructor.
  - destruct (f n) as [b|]; [|done].
    destruct (filterE f names) as [l'|]; [|done].
    intros [= <-]. destruct b; constructor; by apply IH.
Qed.

Lemma filterE_None (f : str -> option bool) (names : list str) :
  filterE f names = None ↔ ∃ n, n ∈ names ∧ f n = None.
Proof.
  induction names as [|n names IH]; simpl.
  - split; [done|]. intros (n & Hn & _). by apply elem_of_nil in Hn.
  - destruct (f n) as [b|] eqn:Hf.
    + destruct (filterE f names) as [l'|].
      * split; [done|]. intros (m & Hm & Hfm).
        apply elem_of_cons in Hm as [->|Hm]; [congruence|].
        assert (Some l' = None) as H; [|done].
        apply IH. eauto.
      * split; [|done]. intros _.
        destruct (proj1 IH eq_refl) as (m & Hm & Hfm).
        exists m. split; [by right|done].
    + split; [|done]. intros _. exists n. split; [by left|done].
Qed.

Lemma filterE_elem (f : str -> option bool) (names l : list str) (n : str) :
  filterE f names = Some l → n ∈ l ↔ n ∈ names ∧ f n = Some true.
Proof.
  revert l. induction names as [|m names IH]; intros l; simpl.
  - intros [= <-]. split; [by intros ?%elem_of_nil|by intros [?%elem_of_nil _]].
  - destruct (f m) as [b|] eqn:Hf; [|done].
    destruct (filterE f names) as [l'|]; [|done].
    intros [= <-]. specialize (IH l' eq_refl).
    destruct b; rewrite ?elem_of_cons, IH; split.
    + intros [->|[? ?]]; auto.
    + intros [[->|?] ?]; auto.
    + intros [? ?]; auto.
    + intros [[->|?] ?]; [congruence|auto].
Qed.

Lemma keepCard_no_selection (card : Card) :
  keepCard (bool_decide (C ∈ elements (∅ : gset str)))
           (filter (fun c => c ≠ C) (elements (∅ : gset str))) card = true.
Proof.
  rewrite elements_empty. unfold keepCard.
  by destruct (includes (typeLine card) (js "Basic Land")).
Qed.

End FilterFacts.

(** X2. The filter only drops names: what it returns is a subsequence of
    [cardNames], in the same order and with no name added. *)
Theorem getFilteredCardList_sublist (cat : Catalog) (selection : gset str)
  (result : list str) :
  getFilteredCardList cat selection = Some result →
  result `sublist_of` cardNames cat.
Proof. apply filterE_sublist. Qed.

Lemma getFilteredCardList_sublist_witness :
  [js "Mountain"; js "Shock"] `sublist_of` cardNames catalog.
Proof.
  apply (getFilteredCardList_sublist catalog {[ js "R" ]}).
  by vm_compute.
Defined.

(** X3. The filter fails (with the TypeError of a property read on
    [undefined]) exactly when [cardNames] has a name without an entry in
    [cardDataMap]. *)
Theorem getFilteredCardList_throws_iff (cat : Catalog)
  (selection : gset str) :
  getFilteredCardList cat selection = None
  ↔ ∃ n, n ∈ cardNames cat ∧ cardDataMap cat !! n = None.
Proof.
  unfold getFilteredCardList. rewrite filterE_None.
  split; intros (n & Hn & Hl); exists n; (split; [done|]).
  - by destruct (cardDataMap cat !! n).
  - by rewrite Hl.
Qed.

(** X4. With no colour selected the filter returns all of [cardNames],
    unchanged, for a catalog that has a card for each of its names. *)
Theorem getFilteredCardList_no_selection (cat : Catalog) :
  (∀ n, n ∈ cardNames cat → is_Some (cardDataMap cat !! n)) →
  getFilteredCardList cat ∅ = Some (cardNames cat).
Proof.
  intros Hdef. unfold getFilteredCardList.
  rewrite (filterE_total _ (fun _ => true)).
  - f_equal. clear Hdef.
    induction (cardNames cat) as [|n l IH]; simpl; [done|by f_equal].
  - intros n Hn. destruct (Hdef n Hn) as [card ->].
    by rewrite keepCard_no_selection.
Qed.

Lemma getFilteredCardList_no_selection_witness :
  getFilteredCardList catalog ∅ = Some (cardNames catalog).
Proof.
  apply (getFilteredCardList_no_selection catalog).
  intros n Hn. vm_compute in Hn.
  repeat (apply elem_of_cons in Hn as [->|Hn]; [by vm_compute; eauto|]).
  by apply elem_of_nil in Hn.
Defined.

(** X5. Selecting more colours never removes a card: for a selection that
    is not empty and a selection that contains it, every name that the
    filter returns for the first it returns for the second. *)
Theorem getFilteredCardList_monotone (cat : Catalog)
  (selection selection' : gset str) (result result' : list str) :
  selection ≠ ∅ → selection ⊆ selection' →
  getFilteredCardList cat selection = Some result →
  getFilteredCardList cat selection' = Some result' →
  ∀ n, n ∈ result → n ∈ result'.
Proof.
  intros Hne Hsub Hr Hr' n Hn.
  unfold getFilteredCardList in Hr, Hr'.
  rewrite (filterE_elem _ _ _ n Hr) in Hn.
  rewrite (filterE_elem _ _ _ n Hr').
  destruct Hn as [Hin Hkeep]. split; [done|].
  destruct (cardDataMap cat !! n) as [card|]; [|done].
  injection Hkeep as Hkeep. f_equal.
  apply keepCard_spec in Hkeep. apply keepCard_spec.
  destruct Hkeep as [Hb|[He|[[Hci Hc]|[Hci Hall]]]].
  - by left.
  - done.
  - right. right. left. split; [done|]. left.
    destruct Hc as [Hc|Hc]; [set_solver|].
    apply Hsub. destruct (decide (C ∈ selection)); [done|].
    exfalso. apply Hne. set_solver.
  - right. right. right. split; [done|].
    intros c Hc. specialize (Hall c Hc). set_solver.
Qed.

Lemma getFilteredCardList_monotone_witness :
  js "Shock" ∈ [js "Golem"; js "Mountain"; js "Shock"].
Proof.
  apply (getFilteredCardList_monotone catalog {[ js "R" ]}
           {[ js "R"; js "C" ]} [js "Mountain"; js "Shock"]).
  - apply non_empty_singleton_L.
  - apply union_subseteq_l.
  - by vm_compute.
  - by vm_compute.
  - apply elem_of_cons; right. apply elem_of_cons; by left.
Defined.

(** ** Prompt assembly *)

Section ListFacts.

Lemma typeOrder_NoDup : NoDup typeOrder.
Proof. apply (bool_decide_unpack _). by vm_compute. Qed.

Lemma baseTypeOf_in_typeOrder (tl : str) : baseTypeOf tl ∈ typeOrder.
Proof.
  unfold baseTypeOf, typeOrder.
  repeat match goal with |- context [includes tl ?k] =>
    destruct (includes tl k) end; set_solver.
Qed.

(** Lists filed by a key drawn from a duplicate-free list of keys make up
    the list that was filed. *)
Lemma filed_permutation {A} (F : A → option str) (keys : list str)
  (l : list A) :
  NoDup keys → (∀ x, x ∈ l → ∃ k, k ∈ keys ∧ F x = Some k) →
  concat (map (fun k => filter (fun x => F x = Some k) l) keys) ≡ₚ l.
Proof.
  intros Hnd. revert l. induction Hnd as [|k keys Hnotin Hnd IH]; intros l Hl.
  - destruct l as [|x l]; [done|].
    destruct (Hl x) as (k & Hk & _); [by left|]. by apply elem_of_nil in Hk.
  - simpl.
    assert (map (fun k' => filter (fun x => F x = Some k') l) keys
            = map (fun k' => filter (fun x => F x = Some k')
                               (filter (fun x => ¬ F x = Some k) l)) keys)
      as ->.
    { apply map_ext_in. intros k' Hk'. apply list_elem_of_In in Hk'.
      rewrite list_filter_filter. apply list_filter_iff.
      intros x. split; [|by intros [? _]].
      intros Hx. split; [done|]. rewrite Hx. intros [= ->]. done. }
    rewrite IH.
    + apply filter_app_complement.
    + intros x Hx. apply list_elem_of_filter in Hx as [Hne Hx].
      destruct (Hl x Hx) as (k' & Hk' & HF).
      exists k'. split; [|done].
      apply elem_of_cons in Hk' as [Heq|?]; [subst; contradiction|done].
Qed.

Lemma startsWith_app (s t : str) : startsWith (s ++ t) s = true.
Proof.
  induction s as [|c s IH]; simpl; [by destruct t|].
  by rewrite N.eqb_refl.
Qed.

Lemma startsWith_app_l (p t s : str) :
  startsWith p s = true → startsWith (p ++ t) s = true.
Proof.
  revert p. induction s as [|c s IH]; intros p;
    [intros _; by destruct (p ++ t)|].
  destruct p as [|d p]; simpl; [done|].
  intros [-> Hs]%andb_true_iff. by rewrite IH.
Qed.

Lemma includes_app_r (p t s : str) :
  includes t s = true → includes (p ++ t) s = true.
Proof.
  intros Ht. induction p as [|c p IH]; simpl; [done|].
  rewrite IH. apply orb_true_r.
Qed.

Lemma includes_app_l (p t s : str) :
  includes p s = true → includes (p ++ t) s = true.
Proof.
  induction p as [|c p IH].
  - simpl. rewrite orb_false_r. intros Hs. destruct s; [by destruct t|done].
  - change (includes (c :: p) s)
      with (startsWith (c :: p) s || includes p s).
    change (includes ((c :: p) ++ t) s)
      with (startsWith ((c :: p) ++ t) s || includes (p ++ t) s).
    intros [Hs|Hs]%orb_true_iff.
    + by rewrite (startsWith_app_l (c :: p) t s Hs).
    + rewrite (IH Hs). apply orb_true_r.
Qed.

Lemma includes_startsWith (u s : str) :
  startsWith u s = true → includes u s = true.
Proof.
  destruct u as [|c u].
  - simpl. by intros ->.
  - change (includes (c :: u) s)
      with (startsWith (c :: u) s || includes u s).
    by intros ->.
Qed.

Lemma includes_here (p s t : str) : includes (p ++ s ++ t) s = true.
Proof. apply includes_app_r, includes_startsWith, startsWith_app. Qed.

End ListFacts.

Section PromptFacts.

Variable cat : Catalog.

Lemma groupNames_None (names : list str) (groups : gmap str (list str)) :
  groupNames cat names groups = None
  ↔ ∃ n, n ∈ names ∧ cardDataMap cat !! n = None.
Proof.
  revert groups. induction names as [|n names IH]; intros groups; simpl.
  - split; [done|]. by intros (n & ?%elem_of_nil & _).
  - destruct (cardDataMap cat !! n) as [card|] eqn:Hcard.
    + rewrite IH. split.
      * intros (m & Hm & Hl). exists m. split; [by right|done].
      * intros (m & Hm & Hl). apply elem_of_cons in Hm as [->|Hm];
          [congruence|eauto].
    + split; [|done]. intros _. exists n. split; [by left|done].
Qed.

(** The members of a group are names of the list, with a card of the
    group's category. *)
Lemma groupNames_members (names : list str) (groups : gmap str (list str))
  (type : str) :
  groupNames cat names ∅ = Some groups →
  default [] (groups !! type)
  = filter (fun n => baseTypeOf ∘ typeLine <$> cardDataMap cat !! n
                     = Some type) names.
Proof.
  intros Hg. rewrite (groupNames_by_category cat names ∅ groups type Hg).
  by rewrite lookup_empty.
Qed.

Lemma cardLines_includes (members : list str) (ls : str) (n line : str) :
  cardLines cat members = Some ls → n ∈ members →
  cardLine cat n = Some line → includes ls line = true.
Proof.
  revert ls. induction members as [|m members IH]; intros ls; simpl.
  - by intros _ ?%elem_of_nil.
  - destruct (cardLine cat m) as [l|] eqn:Hm; [|done].
    destruct (cardLines cat members) as [ls'|]; [|done].
    intros [= <-] Hn Hline. apply elem_of_cons in Hn as [->|Hn].
    + rewrite Hline in Hm. injection Hm as <-.
      apply (includes_here [] line ls').
    + apply includes_app_r. by apply IH.
Qed.

Lemma cardLines_is_Some (members : list str) :
  (∀ n, n ∈ members → is_Some (cardDataMap cat !! n)) →
  is_Some (cardLines cat members).
Proof.
  induction members as [|m members IH]; intros Hm; simpl; [eauto|].
  unfold cardLine. destruct (Hm m) as [c ->]; [by left|].
  destruct IH as [ls ->]; [|eauto]. intros n Hn. apply Hm. by right.
Qed.

Lemma groupBlocks_cons (groups : gmap str (list str)) (t : str)
  (types : list str) :
  groupBlocks cat groups (t :: types)
  = match groups !! t with
    | None | Some [] => groupBlocks cat groups types
    | Some members =>
        match cardLines cat members, groupBlocks cat groups types with
        | Some ls, Some rest =>
            Some ([10%N] ++ js "--- " ++ t ++ js "s ("
                  ++ toString (Z.of_nat (length members)) ++ js ") ---"
                  ++ [10%N] ++ ls ++ rest)
        | _, _ => None
        end
    end.
Proof. reflexivity. Qed.

Lemma groupBlocks_is_Some (groups : gmap str (list str)) (types : list str) :
  (∀ t members n, groups !! t = Some members → n ∈ members →
                  is_Some (cardDataMap cat !! n)) →
  is_Some (groupBlocks cat groups types).
Proof.
  intros Hg. induction types as [|t types IH]; [by eexists|].
  rewrite groupBlocks_cons.
  destruct (groups !! t) as [[|m members]|] eqn:Ht; [done| |done].
  destruct (cardLines_is_Some (m :: members)) as [ls ->]; [by eauto|].
  destruct IH as [rest ->]. by eexists.
Qed.

Lemma groupBlocks_includes (groups : gmap str (list str)) (types : list str)
  (text : str) (t : str) (members : list str) (n line : str) :
  groupBlocks cat groups types = Some text →
  t ∈ types → groups !! t = Some members → n ∈ members →
  cardLine cat n = Some line → includes text line = true.
Proof.
  intros Hb Ht Hg Hn Hline. revert text Hb.
  induction types as [|t' types IH]; intros text;
    [by apply elem_of_nil in Ht|].
  rewrite groupBlocks_cons.
  destruct (decide (t' = t)) as [->|Hne].
  - rewrite Hg. destruct members as [|m members];
      [by apply elem_of_nil in Hn|].
    destruct (cardLines cat (m :: members)) as [ls|] eqn:Hls; [|done].
    destruct (groupBlocks cat groups types) as [rest|]; [|done].
    intros Heq%(inj Some). subst text. do 7 apply includes_app_r.
    apply includes_app_l.
    by apply (cardLines_includes (m :: members) ls n line).
  - apply elem_of_cons in Ht as [?|Ht]; [done|].
    destruct (groups !! t') as [[|m' members']|].
    1,3: by apply IH.
    destruct (cardLines cat (m' :: members')) as [ls|]; [|done].
    destruct (groupBlocks cat groups types) as [rest|]; [|done].
    intros Heq%(inj Some). subst text. do 8 apply includes_app_r.
    by apply IH.
Qed.

End PromptFacts.

(** X6. Building the card list text fails (with the TypeError of a
    property read on [undefined]) exactly when one of the names has no
    entry in [cardDataMap]. *)
Theorem buildCardListText_throws_iff (cat : Catalog) (names : list str) :
  buildCardListText cat names = None
  ↔ ∃ n, n ∈ names ∧ cardDataMap cat !! n = None.
Proof.
  unfold buildCardListText.
  destruct (groupNames cat names ∅) as [groups|] eqn:Hg.
  - split.
    + intros Hb.
      destruct (groupBlocks_is_Some cat groups typeOrder) as [text Ht];
        [|congruence].
      intros t members n Ht Hn.
      pose proof (groupNames_members cat names groups t Hg) as Hm.
      rewrite Ht in Hm. simpl in Hm. rewrite Hm in Hn.
      apply list_elem_of_filter in Hn as [Hc _].
      by destruct (cardDataMap cat !! n).
    + intros Hex. apply (groupNames_None cat names ∅) in Hex. congruence.
  - split; [|done]. intros _. by apply (groupNames_None cat names ∅).
Qed.

(** X7. The grouping loop loses no name and repeats none: the groups, taken
    in the order in which their blocks are written, hold the names of the
    list, each as often as the list has it. *)
Theorem groupNames_partition (cat : Catalog) (names : list str)
  (groups : gmap str (list str)) :
  groupNames cat names ∅ = Some groups →
  concat (map (fun type => default [] (groups !! type)) typeOrder) ≡ₚ names.
Proof.
  intros Hg.
  rewrite (map_ext _ (fun type =>
             filter (fun n => baseTypeOf ∘ typeLine <$> cardDataMap cat !! n
                              = Some type) names))
    by (intros type; apply (groupNames_members cat names groups type Hg)).
  apply filed_permutation; [apply typeOrder_NoDup|].
  intros n Hn.
  destruct (cardDataMap cat !! n) as [card|] eqn:Hcard.
  - exists (baseTypeOf (typeLine card)).
    split; [apply baseTypeOf_in_typeOrder|reflexivity].
  - assert (groupNames cat names ∅ = None) as Hnone; [|congruence].
    apply groupNames_None. eauto.
Qed.

Lemma groupNames_partition_witness :
  ∃ groups,
    groupNames catalog [js "Mountain"; js "Shock"; js "Golem"] ∅ = Some groups
    ∧ concat (map (fun type => default [] (groups !! type)) typeOrder)
      ≡ₚ [js "Mountain"; js "Shock"; js "Golem"].
Proof.
  destruct (groupNames catalog [js "Mountain"; js "Shock"; js "Golem"] ∅)
    as [groups|] eqn:Hg; [|by vm_compute in Hg].
  exists groups. split; [done|].
  by apply (groupNames_partition catalog).
Defined.

(** The text built for a list of names has the line of each of them. *)
Lemma buildCardListText_has_every_card_helper (cat : Catalog) (names : list str)
  (text : str) (n : str) :
  buildCardListText cat names = Some text → n ∈ names →
  ∃ c, cardDataMap cat !! n = Some c
       ∧ includes text (n ++ js " | " ++ manaCost c ++ js " | " ++ typeLine c
                        ++ js " | " ++ rarity c ++ [10%N]) = true.
Proof.
  unfold buildCardListText. intros Hb Hn.
  destruct (groupNames cat names ∅) as [groups|] eqn:Hg; [|done].
  destruct (cardDataMap cat !! n) as [c|] eqn:Hc.
  2: { assert (groupNames cat names ∅ = None) as Hnone; [|congruence].
       apply groupNames_None. eauto. }
  exists c. split; [done|].
  pose proof (groupNames_members cat names groups
                (baseTypeOf (typeLine c)) Hg) as Hm.
  destruct (groups !! baseTypeOf (typeLine c)) as [members|] eqn:Hgt.
  - apply (groupBlocks_includes cat groups typeOrder text
             (baseTypeOf (typeLine c)) members n); try done.
    + apply baseTypeOf_in_typeOrder.
    + simpl in Hm. rewrite Hm. apply list_elem_of_filter.
      split; [|done]. by rewrite Hc.
    + unfold cardLine. by rewrite Hc.
  - exfalso. simpl in Hm.
    assert (n ∈ filter (fun n0 => baseTypeOf ∘ typeLine
                                  <$> cardDataMap cat !! n0
                                  = Some (baseTypeOf (typeLine c))) names)
      as Hin by (apply list_elem_of_filter; split; [by rewrite Hc|done]).
    rewrite <- Hm in Hin. by apply elem_of_nil in Hin.
Qed.

(** X8. No card is left out of the prompt: the text built for a list of
    names has, for each name of the list, the line of its card, that is the
    name, the mana cost, the type line and the rarity separated by " | "
    and followed by a line feed. *)
Theorem buildCardListText_has_every_card (cat : Catalog) (names : list str)
  (text : str) (n : str) :
  buildCardListText cat names = Some text → n ∈ names →
  ∃ c, cardDataMap cat !! n = Some c
       ∧ includes text (n ++ js " | " ++ manaCost c ++ js " | " ++ typeLine c
                        ++ js " | " ++ rarity c ++ [10%N]) = true.
Proof. apply buildCardListText_has_every_card_helper. Qed.

Lemma buildCardListText_has_every_card_witness :
  ∃ text,
    buildCardListText catalog [js "Mountain"; js "Shock"] = Some text
    ∧ includes text (js "Shock | {R} | Instant | common" ++ [10%N]) = true.
Proof.
  destruct (buildCardListText catalog [js "Mountain"; js "Shock"])
    as [text|] eqn:Hb; [|by vm_compute in Hb].
  exists text. split; [done|].
  destruct (buildCardListText_has_every_card catalog
              [js "Mountain"; js "Shock"] text (js "Shock") Hb)
    as (c & Hc & Hinc).
  - apply elem_of_cons; right. apply elem_of_cons; by left.
  - vm_compute in Hc. injection Hc as <-. exact Hinc.
Defined.

(** ** Deck-list parser: what the loop keeps *)

Section ParserFacts.

Implicit Types (st : ParseState) (line : str).

Lemma split_nonempty (s : str) : split 10 s ≠ [].
Proof.
  destruct s as [|c s]; simpl; [done|].
  destruct (c =? 10)%N; [done|]. by destruct (split 10 s).
Qed.

(** Splitting at a line feed splits the lines. *)
Lemma split_app_newline (s t : str) :
  split 10 (s ++ 10%N :: t) = split 10 s ++ split 10 t.
Proof.
  induction s as [|c s IH]; simpl; [done|].
  destruct (c =? 10)%N; [by rewrite IH|].
  rewrite IH. pose proof (split_nonempty s).
  by destruct (split 10 s).
Qed.

(** A line that is no header leaves the initial state as it is. *)
Lemma parseLine_initial line :
  test_word_i (js "deck") (trim line) = false →
  test_word_i (js "sideboard") (trim line) = false →
  parseLine initialState line = initialState.
Proof.
  intros Hd Hs. unfold parseLine. rewrite Hd, Hs.
  by destruct (match_entry (trim line)) as [[ds rest]|].
Qed.

Lemma parseLines_initial (lines : list str) :
  (∀ line, line ∈ lines →
           test_word_i (js "deck") (trim line) = false
           ∧ test_word_i (js "sideboard") (trim line) = false) →
  fold_left parseLine lines initialState = initialState.
Proof.
  induction lines as [|line lines IH]; intros Hl; simpl; [done|].
  destruct (Hl line) as [Hd Hs]; [by left|].
  rewrite parseLine_initial by done.
  apply IH. intros l Hin. apply Hl. by right.
Qed.

(** The arrays of the loop only grow, at their end. *)
Lemma parseLine_extends st line :
  l_deck st `prefix_of` l_deck (parseLine st line)
  ∧ l_sideboard st `prefix_of` l_sideboard (parseLine st line)
  ∧ l_explanation st `prefix_of` l_explanation (parseLine st line).
Proof.
  unfold parseLine.
  destruct (test_word_i (js "deck") (trim line)); [done|].
  destruct (test_word_i (js "sideboard") (trim line)); [done|].
  assert (∀ b, l_explanation st
               `prefix_of` l_explanation (noteExplanation st b (trim line)))
    as Hnote.
  { intros b. unfold noteExplanation. simpl.
    destruct (_ && nonEmpty (trim line)); [by apply prefix_app_r|done]. }
  destruct (match_entry (trim line)) as [[ds rest]|];
    [destruct (currentSection st) as [[|]|]|].
  - simpl. split_and!; [by apply prefix_app_r|done..].
  - simpl. split_and!; [done|by apply prefix_app_r|done].
  - split_and!; [done..|apply Hnote].
  - split_and!; [done..|apply Hnote].
Qed.

Lemma parseLines_extends (lines : list str) st :
  l_deck st `prefix_of` l_deck (fold_left parseLine lines st)
  ∧ l_sideboard st `prefix_of` l_sideboard (fold_left parseLine lines st)
  ∧ l_explanation st `prefix_of` l_explanation (fold_left parseLine lines st).
Proof.
  revert st. induction lines as [|line lines IH]; intros st; simpl; [done|].
  destruct (parseLine_extends st line) as (Hd & Hs & He).
  destruct (IH (parseLine st line)) as (Hd' & Hs' & He').
  split_and!; by etrans.
Qed.

Lemma parseLine_invariant st line :
  explanationInvariant st → explanationInvariant (parseLine st line).
Proof.
  destruct st as [d sb sec ex pd]. unfold explanationInvariant, parseLine.
  simpl. intros [Hp Hd].
  destruct (test_word_i (js "deck") (trim line)); [done|].
  destruct (test_word_i (js "sideboard") (trim line)); [done|].
  destruct (match_entry (trim line)) as [[ds rest]|];
    [destruct sec as [[|]|]|]; simpl.
  - split; [|done]. intros _. by destruct d.
  - done.
  - destruct d as [|e d]; simpl; [done|]. by destruct Hd.
  - destruct d as [|e d]; simpl; [done|].
    split; [done|]. intros _. by apply Hd.
Qed.

(** A line that the loop adds to the explanation. *)
Lemma parseLine_explanation st line (l : str) :
  explanationInvariant st →
  l ∈ l_explanation (parseLine st line) →
  l ∈ l_explanation st
  ∨ (l = trim line ∧ l ≠ []
     ∧ test_word_i (js "deck") l = false
     ∧ test_word_i (js "sideboard") l = false
     ∧ match_entry l = None).
Proof.
  destruct st as [d sb sec ex pd]. unfold explanationInvariant, parseLine.
  simpl. intros [Hp Hd].
  destruct (test_word_i (js "deck") (trim line)) eqn:Htd; [by left|].
  destruct (test_word_i (js "sideboard") (trim line)) eqn:Hts; [by left|].
  destruct (match_entry (trim line)) as [[ds rest]|] eqn:Hm.
  - destruct sec as [[|]|]; simpl; [by left|by left|].
    destruct d as [|e d]; [|by destruct Hd].
    simpl. destruct pd; [by destruct Hp|]. by left.
  - simpl.
    destruct (_ && nonEmpty (trim line)) eqn:Hpush; [|by left].
    apply andb_true_iff in Hpush as [_ Hne].
    rewrite elem_of_app, list_elem_of_singleton. intros [?| ->]; [by left|].
    right. split_and!; try done. by destruct (trim line).
Qed.

Lemma parseLines_explanation (lines : list str) st (l : str) :
  explanationInvariant st →
  l ∈ l_explanation (fold_left parseLine lines st) →
  l ∈ l_explanation st
  ∨ ∃ line, line ∈ lines ∧ l = trim line ∧ l ≠ []
            ∧ test_word_i (js "deck") l = false
            ∧ test_word_i (js "sideboard") l = false
            ∧ match_entry l = None.
Proof.
  revert st. induction lines as [|line lines IH]; intros st Hinv; simpl;
    [by left|].
  intros Hl. apply IH in Hl as [Hl|(line' & Hin & H)];
    [| |by apply parseLine_invariant].
  - apply parseLine_explanation in Hl as [Hl|H]; [by left| |done].
    right. exists line. split; [by left|done].
  - right. exists line'. split; [by right|done].
Qed.

End ParserFacts.

Section HeaderFacts.

(** The test of a header pattern with the flag [i] compares the line with
    the word after making its ASCII capitals small. *)
Lemma test_word_i_lower (word s : str) :
  (∀ w, w ∈ word → (97 ≤ w ≤ 122)%N) →
  test_word_i word s = true ↔ map asciiLower s = word.
Proof.
  unfold test_word_i. rewrite bool_decide_eq_true.
  revert s. induction word as [|w word IH]; intros s Hw.
  - destruct s; simpl; split; done.
  - destruct s as [|c s]; simpl; [split; done|].
    assert (97 ≤ w ≤ 122)%N as Hrange by (apply Hw; by left).
    assert (canonicalize c = canonicalize w ↔ asciiLower c = w) as Hc.
    { assert (canonicalize w = (w - 32)%N) as ->.
      { unfold canonicalize.
        by rewrite (proj2 (N.leb_le 97 w)), (proj2 (N.leb_le w 122)) by lia. }
      rewrite (canonicalize_letter c (w - 32)) by lia.
      unfold asciiLower.
      destruct ((65 <=? c) && (c <=? 90))%N eqn:Hcap.
      - apply andb_true_iff in Hcap as [H1 H2].
        apply N.leb_le in H1, H2. lia.
      - apply andb_false_iff in Hcap as [Hcap|Hcap];
          apply N.leb_gt in Hcap; lia. }
    specialize (IH s ltac:(intros; apply Hw; by right)).
    split; intros [= H1 H2]; f_equal; tauto.
Qed.

End HeaderFacts.

(** X9. What comes before the first section header has no effect: a text
    that starts with lines none of which is a "deck" or "sideboard" header
    is parsed as the text that follows them. *)
Theorem parseDeckList_ignores_preamble (preamble text : str) :
  (∀ line, line ∈ split 10 preamble →
           test_word_i (js "deck") (trim line) = false
           ∧ test_word_i (js "sideboard") (trim line) = false) →
  parseDeckList (preamble ++ 10%N :: text) = parseDeckList text.
Proof.
  intros Hpre. unfold parseDeckList, parseLines.
  by rewrite split_app_newline, fold_left_app, parseLines_initial.
Qed.

Lemma parseDeckList_ignores_preamble_witness :
  parseDeckList (js "Here is your deck:" ++ 10%N :: scenarioReply)
  = parseDeckList scenarioReply.
Proof.
  apply (parseDeckList_ignores_preamble (js "Here is your deck:")).
  intros line Hin. vm_compute in Hin.
  repeat (apply elem_of_cons in Hin as [->|Hin]; [by vm_compute|]).
  by apply elem_of_nil in Hin.
Defined.

(** X10. Every name that the parser records, in the main deck or in the
    sideboard, is not empty, has no white space at either end and holds no
    line terminator. *)
Theorem recorded_name_wellformed (text : str) (e : DeckEntry) :
  e ∈ recorded (parseLines text) →
  name e ≠ [] ∧ trim (name e) = name e
  ∧ ∀ c, c ∈ name e → isLineTerminator c = false.
Proof.
  intros He. apply recorded_entries_wellformed in He as [_ (Ht & Hne & Hlt)].
  done.
Qed.

Lemma recorded_name_wellformed_witness :
  trim (js "Negate") = js "Negate".
Proof.
  apply (recorded_name_wellformed scenarioReply
           {| count := 1; name := js "Negate" |}).
  vm_compute. apply elem_of_cons; right. apply elem_of_cons; right.
  apply elem_of_cons; by left.
Defined.

(** X11. Every line of the explanation is the trim of a line of the text,
    is not empty, is no section header and does not match the entry
    pattern. *)
Theorem explanation_lines (text : str) (l : str) :
  l ∈ l_explanation (parseLines text) →
  ∃ line, line ∈ split 10 text ∧ l = trim line ∧ l ≠ []
          ∧ test_word_i (js "deck") l = false
          ∧ test_word_i (js "sideboard") l = false
          ∧ match_entry l = None.
Proof.
  intros Hl. apply parseLines_explanation in Hl as [Hl|H]; [|done|].
  - by apply elem_of_nil in Hl.
  - split; [done|]. by intros [].
Qed.

Lemma explanation_lines_witness :
  ∃ line, line ∈ split 10 (js "Deck" ++ newline ++ js "4 Mountain" ++ newline
                           ++ js " Burn it all. ")
          ∧ js "Burn it all." = trim line.
Proof.
  destruct (explanation_lines
              (js "Deck" ++ newline ++ js "4 Mountain" ++ newline
               ++ js " Burn it all. ") (js "Burn it all."))
    as (line & Hin & Heq & _).
  - vm_compute. by left.
  - by exists line.
Defined.

(** X12. When a text goes on after a line feed, what was read before stays:
    the main deck, the sideboard and the explanation lines of the text are
    the beginnings of those of the longer text, and a text that parsed
    still parses. *)
Theorem parse_extends (text more : str) :
  l_deck (parseLines text)
    `prefix_of` l_deck (parseLines (text ++ 10%N :: more))
  ∧ l_sideboard (parseLines text)
      `prefix_of` l_sideboard (parseLines (text ++ 10%N :: more))
  ∧ l_explanation (parseLines text)
      `prefix_of` l_explanation (parseLines (text ++ 10%N :: more))
  ∧ (parseDeckList text ≠ NoDeck →
     parseDeckList (text ++ 10%N :: more) ≠ NoDeck).
Proof.
  unfold parseLines at 2 4 6. rewrite split_app_newline, fold_left_app.
  fold (parseLines text).
  destruct (parseLines_extends (split 10 more) (parseLines text))
    as (Hd & Hs & He).
  split_and!; [done..|].
  unfold parseDeckList, parseLines.
  rewrite split_app_newline, fold_left_app. fold (parseLines text).
  destruct (l_deck (parseLines text)) as [|e d] eqn:Hdeck; [done|].
  intros _. destruct Hd as [k ->]. done.
Qed.

Lemma parse_extends_witness :
  parseDeckList (scenarioReply ++ 10%N :: js "1 Forest") ≠ NoDeck.
Proof.
  apply (parse_extends scenarioReply (js "1 Forest")). by vm_compute.
Defined.

(** X13. A line is a section header exactly by its trim with the ASCII
    capitals made small: "deck" puts the parser in the deck section,
    "sideboard" in the sideboard section, both without any other change;
    every other line leaves the section as it is. *)
Theorem section_transitions (st : ParseState) (line : str) :
  (map asciiLower (trim line) = js "deck" →
   parseLine st line = setSection st InDeck)
  ∧ (map asciiLower (trim line) = js "sideboard" →
     parseLine st line = setSection st InSideboard)
  ∧ (map asciiLower (trim line) ≠ js "deck" →
     map asciiLower (trim line) ≠ js "sideboard" →
     currentSection (parseLine st line) = currentSection st).
Proof.
  assert (∀ w, w ∈ js "deck" → (97 ≤ w ≤ 122)%N) as Hdeck.
  { intros w Hw. vm_compute in Hw.
    repeat (apply elem_of_cons in Hw as [->|Hw]; [lia|]).
    by apply elem_of_nil in Hw. }
  assert (∀ w, w ∈ js "sideboard" → (97 ≤ w ≤ 122)%N) as Hside.
  { intros w Hw. vm_compute in Hw.
    repeat (apply elem_of_cons in Hw as [->|Hw]; [lia|]).
    by apply elem_of_nil in Hw. }
  pose proof (fun s => test_word_i_lower (js "deck") s Hdeck) as Hd.
  pose proof (fun s => test_word_i_lower (js "sideboard") s Hside) as Hs.
  unfold parseLine. split_and!.
  - intros H. by rewrite (proj2 (Hd _) H).
  - intros H.
    destruct (test_word_i (js "deck") (trim line)) eqn:Ht.
    + apply Hd in Ht. rewrite H in Ht. by vm_compute in Ht.
    + by rewrite (proj2 (Hs _) H).
  - intros Hnd Hns.
    destruct (test_word_i (js "deck") (trim line)) eqn:Ht;
      [by apply Hd in Ht|].
    destruct (test_word_i (js "sideboard") (trim line)) eqn:Ht';
      [by apply Hs in Ht'|].
    destruct (match_entry (trim line)) as [[ds rest]|]; [|done].
    destruct (currentSection st) as [sec|] eqn:Hsec; [|done].
    by rewrite (pushEntry_section st sec).
Qed.

Lemma section_transitions_witness :
  parseLine initialState (js "  DeCk ") = setSection initialState InDeck.
Proof.
  apply (section_transitions initialState (js "  DeCk ")). by vm_compute.
Defined.



(** ** Deck statistics: how the totals add up *)

Section StatsFacts.

Variable dataMap : gmap str Card.





End StatsFacts.




(** ** The proxies: what they answer and what they let through *)


(** X18. The worker forwards nothing but a POST whose [Origin] is one of
    the allowed origins: it answers 204 to every OPTIONS request, 405 to
    every other method than POST, and 403 to a POST from any other origin
    or without origin, whatever the body. *)
Theorem worker_gate (ToNumber_object : Proxy.JSON -> Proxy.Num)
  (method : str) (origin : option str) (parsed : option Proxy.JSON) :
  let outcome := Proxy.fetch ToNumber_object method origin parsed in
  (∀ payload, outcome = Proxy.Forward payload →
              method = js "POST"
              ∧ ∃ o, origin = Some o ∧ o ∈ Proxy.ALLOWED_ORIGINS)
  ∧ (method = js "OPTIONS" → outcome = Proxy.Respond 204)
  ∧ (method ≠ js "OPTIONS" → method ≠ js "POST" →
     outcome = Proxy.Respond 405)
  ∧ (method = js "POST" → default [] origin ∉ Proxy.ALLOWED_ORIGINS →
     outcome = Proxy.Respond 403).
Proof.
  simpl. unfold Proxy.fetch. split_and!.
  - intros payload.
    destruct (bool_decide (method = js "OPTIONS")); [done|].
    destruct (bool_decide (method = js "POST")) eqn:Hm; [|done].
    apply bool_decide_eq_true in Hm.
    destruct (bool_decide (default [] origin ∈ Proxy.ALLOWED_ORIGINS))
      eqn:Ho; [|done].
    apply bool_decide_eq_true in Ho. intros _. split; [done|].
    destruct origin as [o|]; [by exists o|].
    assert ([] ∉ Proxy.ALLOWED_ORIGINS) as Hn
      by (apply (bool_decide_unpack _); by vm_compute).
    by destruct Hn.
  - intros ->. done.
  - intros H1 H2.
    by rewrite (bool_decide_eq_false_2 _ H1), (bool_decide_eq_false_2 _ H2).
  - intros -> Ho. simpl. by rewrite (bool_decide_eq_false_2 _ Ho).
Qed.

Lemma worker_gate_witness :
  Proxy.fetch (fun _ => Proxy.NaN) (js "POST")
    (Some (js "https://example.org")) (Some zeroTokensBody)
  = Proxy.Respond 403.
Proof.
  apply (worker_gate (fun _ => Proxy.NaN) (js "POST")
           (Some (js "https://example.org")) (Some zeroTokensBody)).
  - reflexivity.
  - apply (bool_decide_unpack _). by vm_compute.
Defined.

(** X19. The origin that the worker allows in its answer is always one of
    the allowed origins: the origin of the request when that is allowed,
    and the first allowed origin otherwise. *)
Theorem corsHeaders_allowed (origin : str) :
  Proxy.corsHeaders origin ∈ Proxy.ALLOWED_ORIGINS
  ∧ (origin ∈ Proxy.ALLOWED_ORIGINS → Proxy.corsHeaders origin = origin)
  ∧ (origin ∉ Proxy.ALLOWED_ORIGINS →
     Proxy.corsHeaders origin = js "https://mrheathv.github.io").
Proof.
  unfold Proxy.corsHeaders.
  destruct (bool_decide (origin ∈ Proxy.ALLOWED_ORIGINS)) eqn:Ho.
  - apply bool_decide_eq_true in Ho. done.
  - apply bool_decide_eq_false in Ho. split_and!; [|done..].
    apply (bool_decide_unpack _). by vm_compute.
Qed.

(** X20. What a proxy forwards of the request: the messages as they are; a
    temperature that is neither absent nor [null] as it is, zero included;
    a model that is truthy as it is, and "gpt-4o" for a model that is
    absent, [null], [false], zero or the empty string. *)
Theorem proxy_forwards_fields (ToNumber_object : Proxy.JSON -> Proxy.Num)
  (body : Proxy.JSON) (payload : Proxy.Payload) :
  Proxy.proxyBody ToNumber_object (Some body) = Proxy.Forward payload →
  Proxy.getProp body (js "messages")
  = Some (Some (Proxy.JArr (Proxy.messages payload)))
  ∧ (∀ v, Proxy.getProp body (js "temperature") = Some (Some v) →
          v ≠ Proxy.JNull → Proxy.temperature payload = v)
  ∧ (∀ v, Proxy.getProp body (js "model") = Some (Some v) →
          Proxy.truthy (Some v) = true → Proxy.model payload = v)
  ∧ (∀ v, Proxy.getProp body (js "model") = Some v →
          Proxy.truthy v = false →
          Proxy.model payload = Proxy.JStr (js "gpt-4o")).
Proof.
  intros H. apply proxyBody_forward in H
    as (body' & m & ms & mo & te & mt & [= <-] & Hmsg & Hmo & Hte & Hmt & ->).
  rewrite Hmsg, Hmo, Hte. unfold Proxy.buildPayload.
  cbn [Proxy.model Proxy.temperature Proxy.messages].
  split_and!; [done| | |].
  - intros v [= ->] Hv. by destruct v.
  - intros v [= ->] Hv. by rewrite Hv.
  - intros v [= ->] Hv. by rewrite Hv.
Qed.

Lemma proxy_forwards_fields_witness :
  Proxy.getProp zeroTokensBody (js "messages")
  = Some (Some (Proxy.JArr [Proxy.JStr (js "hi")])).
Proof.
  apply (proxy_forwards_fields (fun _ => Proxy.NaN) zeroTokensBody
           (Proxy.buildPayload (fun _ => Proxy.NaN)
              [Proxy.JStr (js "hi")] None None (Some (Proxy.JNum 0)))).
  reflexivity.
Defined.

(** X21. The earlier worker forwards every POST whose body has an array
    under [messages], whatever the origin of the request and even when the
    array is empty. *)
Theorem legacy_worker_forwards (ToNumber_object : Proxy.JSON -> Proxy.Num)
  (body : Proxy.JSON) (msgs : list Proxy.JSON) :
  Proxy.getProp body (js "messages") = Some (Some (Proxy.JArr msgs)) →
  ∃ payload,
    LegacyWorker.fetch ToNumber_object (js "POST") (Some body)
    = Proxy.Forward payload
    ∧ Proxy.messages payload = msgs.
Proof.
  intros Hmsg. unfold LegacyWorker.fetch. simpl. rewrite Hmsg.
  destruct body; try done; simpl; eauto.
Qed.

Lemma legacy_worker_forwards_witness :
  ∃ payload,
    LegacyWorker.fetch (fun _ => Proxy.NaN) (js "POST")
      (Some (Proxy.JObj [ (js "messages", Proxy.JArr []) ]))
    = Proxy.Forward payload
    ∧ Proxy.messages payload = [].
Proof.
  apply (legacy_worker_forwards (fun _ => Proxy.NaN)
           (Proxy.JObj [ (js "messages", Proxy.JArr []) ]) []).
  reflexivity.
Defined.

(** X22. The earlier worker allows in its answer the origin of the request
    itself as soon as that origin starts with one of its allowed origins,
    and its first allowed origin otherwise. *)
Theorem legacy_getCorsHeaders_prefix (origin : str) :
  ((∃ o, o ∈ LegacyWorker.ALLOWED_ORIGINS ∧ startsWith origin o = true) →
   LegacyWorker.getCorsHeaders (Some origin) = origin)
  ∧ ((∀ o, o ∈ LegacyWorker.ALLOWED_ORIGINS → startsWith origin o = false) →
     LegacyWorker.getCorsHeaders (Some origin)
     = js "https://yourusername.github.io").
Proof.
  unfold LegacyWorker.getCorsHeaders, LegacyWorker.ALLOWED_ORIGINS.
  cbn [default List.find]. unfold id.
  split.
  - intros (o & Ho & Hs).
    repeat (apply elem_of_cons in Ho as [->|Ho]).
    4: by apply elem_of_nil in Ho.
    + by rewrite Hs.
    + rewrite Hs.
      by destruct (startsWith origin (js "https://yourusername.github.io")).
    + rewrite Hs.
      by destruct (startsWith origin (js "https://yourusername.github.io")),
                  (startsWith origin (js "http://localhost:8080")).
  - intros Hall.
    rewrite !Hall by (apply (bool_decide_unpack _); by vm_compute).
    reflexivity.
Qed.

Lemma legacy_getCorsHeaders_prefix_witness :
  LegacyWorker.getCorsHeaders (Some (js "http://localhost:8080.example.org"))
  = js "http://localhost:8080.example.org".
Proof.
  apply (legacy_getCorsHeaders_prefix (js "http://localhost:8080.example.org")).
  exists (js "http://localhost:8080"). split.
  - apply (bool_decide_unpack _). by vm_compute.
  - by vm_compute.
Defined.

(** ** The session: requests, history and deck text *)

(** X23. [generateDeck] asks nothing of the service, and changes neither
    the history nor the deck text, when the API key is blank or when no
    colour is selected; it then shows a message. *)
Theorem generateDeck_refuses (cat : Catalog) (inputs : Session.Inputs)
  (st : Session.State) :
  trim (Session.apiKeyValue inputs) = [] ∨ Session.selectedColors st = [] →
  (∃ message, Session.generateDeck cat inputs st = Session.Refused message)
  ∧ ∀ result,
      Session.finish st (Session.generateDeck cat inputs st) result = st.
Proof.
  intros H. unfold Session.generateDeck.
  destruct (trim (Session.apiKeyValue inputs)) as [|c k] eqn:Hkey; simpl.
  - split; [eauto|done].
  - destruct H as [?|Hsel]; [done|]. rewrite Hsel. simpl.
    split; [eauto|done].
Qed.

Lemma generateDeck_refuses_witness :
  ∃ message,
    Session.generateDeck catalog
      {| Session.apiKeyValue := js "sk-test-0123456789";
         Session.archetypeValue := js "Aggro";
         Session.formatValue := js "bo1";
         Session.extraInstructionsValue := [];
         Session.chatInputValue := [] |}
      {| Session.selectedColors := []; Session.conversationHistory := [];
         Session.currentDeckText := [] |}
    = Session.Refused message.
Proof.
  apply (generateDeck_refuses catalog). by right.
Defined.

(** X24. When [generateDeck] calls the service, the API key is not blank, a
    colour is selected, and the history is replaced by two messages: the
    system prompt and a user prompt. The user prompt holds the line of the
    card of every name that the colour filter returns for the selection. *)
Theorem generateDeck_request (cat : Catalog) (inputs : Session.Inputs)
  (st st' : Session.State) :
  Session.generateDeck cat inputs st = Session.Requested st' →
  trim (Session.apiKeyValue inputs) ≠ []
  ∧ Session.selectedColors st ≠ []
  ∧ Session.selectedColors st' = Session.selectedColors st
  ∧ Session.currentDeckText st' = Session.currentDeckText st
  ∧ ∃ names prompt,
      getFilteredCardList cat (list_to_set (Session.selectedColors st))
      = Some names
      ∧ Session.conversationHistory st'
        = [ {| Session.role := js "system";
               Session.content := Some Session.SYSTEM_PROMPT |};
            {| Session.role := js "user";
               Session.content := Some prompt |} ]
      ∧ ∀ n, n ∈ names →
             ∃ c, cardDataMap cat !! n = Some c
                  ∧ includes prompt
                      (n ++ js " | " ++ manaCost c ++ js " | " ++ typeLine c
                       ++ js " | " ++ rarity c ++ [10%N]) = true.
Proof.
  unfold Session.generateDeck.
  destruct (trim (Session.apiKeyValue inputs)) as [|c k] eqn:Hkey; [done|].
  cbn [nonEmpty negb].
  destruct (Session.selectedColors st) as [|col cols] eqn:Hsel; [done|].
  cbn [length bool_decide decide_rel].
  rewrite bool_decide_eq_false_2 by done.
  destruct (getFilteredCardList cat (list_to_set (col :: cols)))
    as [names|] eqn:Hnames; [|done].
  destruct (buildCardListText cat names) as [cardListText|] eqn:Htext;
    [|done].
  intros Heq. injection Heq as Heq. subst st'.
  cbn [Session.selectedColors Session.currentDeckText
       Session.conversationHistory].
  split_and!; [done..|].
  eexists names, _. split_and!; [done..|].
  intros n Hn.
  destruct (buildCardListText_has_every_card_helper cat names cardListText n
              Htext Hn) as (card & Hcard & Hinc).
  exists card. split; [done|].
  unfold Session.userPrompt.
  do 13 apply includes_app_r. by apply includes_app_l.
Qed.

Lemma generateDeck_request_witness :
  let inputs := {| Session.apiKeyValue := js "sk-test-0123456789";
                   Session.archetypeValue := js "Aggro";
                   Session.formatValue := js "bo1";
                   Session.extraInstructionsValue := [];
                   Session.chatInputValue := [] |} in
  let st := {| Session.selectedColors := [js "R"];
               Session.conversationHistory := [];
               Session.currentDeckText := [] |} in
  ∃ st', Session.generateDeck catalog inputs st = Session.Requested st'
         ∧ Session.selectedColors st' = [js "R"].
Proof.
  intros inputs st.
  destruct (Session.generateDeck catalog inputs st) as [| | |st'] eqn:Hg;
    try (by vm_compute in Hg).
  exists st'. split; [done|].
  by destruct (generateDeck_request catalog inputs st st' Hg)
    as (_ & _ & -> & _).
Defined.

(** X25. A chat message only adds to the end of the history. A blank
    message, or a blank API key, changes nothing and asks nothing of the
    service; otherwise the trimmed message is added as a user message,
    followed by the reply as an assistant message when the service
    replies. When the call fails the user message stays in the history. *)
Theorem chat_history (inputs : Session.Inputs) (st : Session.State)
  (result : Session.ApiResult) :
  let st' := Session.finish st (Session.sendChatMessage inputs st) result in
  Session.conversationHistory st
    `prefix_of` Session.conversationHistory st'
  ∧ (trim (Session.chatInputValue inputs) = []
     ∨ trim (Session.apiKeyValue inputs) = [] → st' = st)
  ∧ (trim (Session.chatInputValue inputs) ≠ [] →
     trim (Session.apiKeyValue inputs) ≠ [] →
     Session.conversationHistory st'
     = Session.conversationHistory st
       ++ {| Session.role := js "user";
             Session.content := Some (trim (Session.chatInputValue inputs)) |}
          :: match result with
             | Session.Failed => []
             | Session.Replied c =>
                 [ {| Session.role := js "assistant";
                      Session.content := c |} ]
             end).
Proof.
  simpl. unfold Session.sendChatMessage.
  destruct (trim (Session.chatInputValue inputs)) as [|c t] eqn:Htext;
    cbn [nonEmpty negb].
  { split_and!; [done|done|done]. }
  destruct (trim (Session.apiKeyValue inputs)) as [|c' k] eqn:Hkey;
    cbn [nonEmpty negb].
  { split_and!; [done|done|done]. }
  destruct result as [|reply]; simpl.
  - split_and!; [by apply prefix_app_r|by intros [?|?]|done].
  - split_and!; [|by intros [?|?]|by rewrite <- app_assoc].
    rewrite <- app_assoc. by apply prefix_app_r.
Qed.

Lemma chat_history_witness :
  let inputs := {| Session.apiKeyValue := js "sk-test-0123456789";
                   Session.archetypeValue := []; Session.formatValue := [];
                   Session.extraInstructionsValue := [];
                   Session.chatInputValue := js " more lands " |} in
  let st := {| Session.selectedColors := [js "R"];
               Session.conversationHistory := [];
               Session.currentDeckText := [] |} in
  Session.conversationHistory
    (Session.finish st (Session.sendChatMessage inputs st) Session.Failed)
  = [ {| Session.role := js "user";
         Session.content := Some (js "more lands") |} ].
Proof.
  intros inputs st.
  apply (chat_history inputs st Session.Failed); by vm_compute.
Defined.


(** X27. A colour button switches its colour and no other: after a click
    the selection holds the colours it held, without the colour of the
    button if it was selected and with it if it was not; and a selection
    without a repeated colour stays so. *)
Theorem toggleColor_switches (st : Session.State) (color : str) :
  (∀ c, c ∈ Session.selectedColors (Session.toggleColor st color)
        ↔ (c ≠ color ∧ c ∈ Session.selectedColors st)
          ∨ (c = color ∧ color ∉ Session.selectedColors st))
  ∧ (NoDup (Session.selectedColors st) →
     NoDup (Session.selectedColors (Session.toggleColor st color)))
  ∧ Session.conversationHistory (Session.toggleColor st color)
    = Session.conversationHistory st
  ∧ Session.currentDeckText (Session.toggleColor st color)
    = Session.currentDeckText st.
Proof.
  unfold Session.toggleColor. simpl.
  destruct (bool_decide (color ∈ Session.selectedColors st)) eqn:Hin;
    [apply bool_decide_eq_true in Hin | apply bool_decide_eq_false in Hin].
  - split_and!; [|by apply NoDup_filter|done..].
    intros c. rewrite list_elem_of_filter. naive_solver.
  - split_and!; [| |done..].
    + intros c. rewrite elem_of_app, list_elem_of_singleton.
      destruct (decide (c = color)) as [->|Hne]; naive_solver.
    + intros Hnd. apply NoDup_app. split_and!; [done| |apply NoDup_singleton].
      intros c Hc ->%list_elem_of_singleton. done.
Qed.

Lemma toggleColor_switches_witness :
  NoDup (Session.selectedColors
           (Session.toggleColor
              {| Session.selectedColors := [js "W"; js "U"];
                 Session.conversationHistory := [];
                 Session.currentDeckText := [] |} (js "W"))).
Proof.
  apply (toggleColor_switches
           {| Session.selectedColors := [js "W"; js "U"];
              Session.conversationHistory := [];
              Session.currentDeckText := [] |} (js "W")).
  apply (bool_decide_unpack _). by vm_compute.
Defined.
